(** * sortedset: a sorted set backed by a left-leaning red-black tree

    Shallow embedding of [sortedset.go] and a verification of its
    specification.  Nodes are owned exclusively by their parent, so the
    pointer graph is modelled as an inductive tree whose [Nil] constructor is
    the nil pointer; every nil dereference of the Go code is an explicit
    [Panic] outcome, and every recursion that is not structural runs on fuel. *)

From Stdlib Require Import String Ascii DecimalString.
From Stdlib Require Import List ZArith Bool Lia Sorted Permutation.
Import ListNotations.

Set Implicit Arguments.

(** ** Outcomes of running Go code *)

Inductive outcome (A : Type) : Type :=
| Ok (a : A)
| Panic
| OutOfFuel.

Arguments Ok {A} a.
Arguments Panic {A}.
Arguments OutOfFuel {A}.

Definition bind {A B : Type} (m : outcome A) (k : A -> outcome B) : outcome B :=
  match m with
  | Ok a => k a
  | Panic => Panic
  | OutOfFuel => OutOfFuel
  end.

Declare Scope go_scope.
Delimit Scope go_scope with go.
Notation "x <- m ;; k" := (bind m (fun x => k))
  (at level 61, m at next level, right associativity) : go_scope.
Notation "' p <- m ;; k" := (bind m (fun x => let p := x in k))
  (at level 61, p pattern, m at next level, right associativity) : go_scope.
Open Scope go_scope.

(** ** The element type

    [Comparable] is the constraint of the Go generics: the operators [<] and
    [==] of an ordered type.  The constraint only admits integer and string
    types, on which [<] is a strict total order that agrees with [==]. *)

Class Comparable (E : Type) : Type := {
  less : E -> E -> bool;
  equal : E -> E -> bool
}.

Class ComparableLaws (E : Type) `{Comparable E} : Prop := {
  less_irrefl : forall x, less x x = false;
  less_trans : forall x y z, less x y = true -> less y z = true -> less x z = true;
  less_total : forall x y, less x y = false -> less y x = false -> x = y;
  equal_spec : forall x y, equal x y = true <-> x = y
}.

Arguments ComparableLaws E {_}.

(** What [String] needs of package [fmt] at the element type: the text the
    verbs [%v] and [%q] print for an element, and whether the type assertion
    [any(element).(string)] succeeds, which depends on the type alone. *)
Class Formatter (E : Type) : Type := {
  formatV : E -> String.string;
  formatQ : E -> String.string;
  isString : bool
}.

Arguments isString E {_}.

#[export] Instance Comparable_Z : Comparable Z :=
  {| less := Z.ltb; equal := Z.eqb |}.

(** [%v] at an integer type prints the decimal numeral; an integer is not a
    [string], so [%q] is never selected for it. *)
#[export] Instance Formatter_Z : Formatter Z :=
  {| formatV := fun z => DecimalString.NilZero.string_of_int (Z.to_int z);
     formatQ := fun z => DecimalString.NilZero.string_of_int (Z.to_int z);
     isString := false |}.

(** Go's [int] is 64 bits wide here; [me.size++] and [me.size--] wrap. *)
Definition int_min : Z := - 2 ^ 63.
Definition int_max : Z := 2 ^ 63 - 1.
Definition int_wrap (z : Z) : Z := (z + 2 ^ 63) mod 2 ^ 64 - 2 ^ 63.

(** ** Nodes and sets *)

Section Tree.

Context {E : Type} `{Comparable E}.

Inductive node : Type :=
| Nil
| Node (element : E) (red : bool) (left right : node).

Record SortedSet : Type := mkSet {
  root : node;
  size : Z
}.

(** The zero value of the struct. *)
Definition empty : SortedSet := {| root := Nil; size := 0 |}.

Definition is_nil (n : node) : bool :=
  match n with Nil => true | Node _ _ _ _ => false end.

Definition isRed (root : node) : bool :=
  match root with
  | Nil => false
  | Node _ red _ _ => red
  end.

(** [child.red = !child.red], guarded by [child != nil]. *)
Definition invert (child : node) : node :=
  match child with
  | Nil => Nil
  | Node e c l r => Node e (negb c) l r
  end.

Definition colorFlip (root : node) : outcome node :=
  match root with
  | Nil => Panic
  | Node e c l r => Ok (Node e (negb c) (invert l) (invert r))
  end.

Definition rotateLeft (root : node) : outcome node :=
  match root with
  | Nil => Panic
  | Node e c l x =>
      match x with
      | Nil => Panic
      | Node xe _ xl xr => Ok (Node xe c (Node e true l xl) xr)
      end
  end.

Definition rotateRight (root : node) : outcome node :=
  match root with
  | Nil => Panic
  | Node e c x r =>
      match x with
      | Nil => Panic
      | Node xe _ xl xr => Ok (Node xe c xl (Node e true xr r))
      end
  end.

(** [isRed(n) && isRed(n.left)]: the second operand is only evaluated, and
    [n] only dereferenced, when [n] is red and therefore not nil. *)
Definition redWithRedLeft (n : node) : bool :=
  match n with
  | Node _ true l _ => isRed l
  | _ => false
  end.

(** [!isRed(n) && !isRed(n.left)]: when [n] is nil the first operand holds
    and [n.left] dereferences nil. *)
Definition blackWithBlackLeft (n : node) : outcome bool :=
  match n with
  | Nil => Panic
  | Node _ c l _ => Ok (negb c && negb (isRed l))
  end.

Definition insertRotation (root : node) : outcome node :=
  match root with
  | Nil => Panic
  | Node _ _ l r =>
      root1 <- (if isRed r && negb (isRed l) then rotateLeft root else Ok root) ;;
      match root1 with
      | Nil => Panic
      | Node _ _ l1 _ =>
          if redWithRedLeft l1 then rotateRight root1 else Ok root1
      end
  end.

Fixpoint insert (fuel : nat) (root : node) (element : E) : outcome (node * bool) :=
  match fuel with
  | O => OutOfFuel
  | S fuel =>
      match root with
      | Nil => Ok (Node element true Nil Nil, true)
      | Node _ _ l r =>
          root1 <- (if isRed l && isRed r then colorFlip root else Ok root) ;;
          match root1 with
          | Nil => Panic
          | Node e c l1 r1 =>
              '(root2, inserted) <-
                 (if less element e then
                    '(l2, inserted) <- insert fuel l1 element ;;
                    Ok (Node e c l2 r1, inserted)
                  else if less e element then
                    '(r2, inserted) <- insert fuel r1 element ;;
                    Ok (Node e c l1 r2, inserted)
                  else Ok (root1, false)) ;;
              root3 <- insertRotation root2 ;;
              Ok (root3, inserted)
          end
      end
  end.

(** Number of nodes: an upper bound on the depth of every recursion. *)
Fixpoint nodes (n : node) : nat :=
  match n with
  | Nil => O
  | Node _ _ l r => S (nodes l + nodes r)
  end.

(** [root.red = c] *)
Definition setRed (root : node) (c : bool) : outcome node :=
  match root with
  | Nil => Panic
  | Node e _ l r => Ok (Node e c l r)
  end.

Definition Add (me : SortedSet) (element : E) : outcome (SortedSet * bool) :=
  '(r, inserted) <- insert (S (nodes (root me))) (root me) element ;;
  r' <- setRed r false ;;
  Ok ({| root := r';
         size := if inserted then int_wrap (size me + 1) else size me |},
      inserted).

Definition Len (me : SortedSet) : Z := size me.

(** ** Traversal *)

Fixpoint all {St : Type} (root : node)
    (yield : E -> St -> outcome (St * bool)) (st : St) : outcome (St * bool) :=
  match root with
  | Nil => Ok (st, true)
  | Node e _ l r =>
      '(st1, go1) <- all l yield st ;;
      if go1 then
        '(st2, go2) <- yield e st1 ;;
        if go2 then all r yield st2 else Ok (st2, false)
      else Ok (st1, false)
  end.

Definition All {St : Type} (me : SortedSet)
    (yield : E -> St -> outcome (St * bool)) (st : St) : outcome St :=
  '(st', _) <- all (root me) yield st ;; Ok st'.

Fixpoint containsFrom (root : node) (element : E) : bool :=
  match root with
  | Nil => false
  | Node e _ l r =>
      if less element e then containsFrom l element
      else if less e element then containsFrom r element
      else true
  end.

Definition Contains (me : SortedSet) (element : E) : bool :=
  containsFrom (root me) element.

(** ** Deletion *)

Definition moveRedLeft (root : node) : outcome node :=
  root1 <- colorFlip root ;;
  match root1 with
  | Nil => Panic
  | Node e c l r =>
      match r with
      | Node _ _ rl _ =>
          if isRed rl then
            r' <- rotateRight r ;;
            root2 <- rotateLeft (Node e c l r') ;;
            colorFlip root2
          else Ok root1
      | Nil => Ok root1
      end
  end.

Definition moveRedRight (root : node) : outcome node :=
  root1 <- colorFlip root ;;
  match root1 with
  | Nil => Panic
  | Node _ _ l _ =>
      match l with
      | Node _ _ ll _ =>
          if isRed ll then
            root2 <- rotateRight root1 ;;
            colorFlip root2
          else Ok root1
      | Nil => Ok root1
      end
  end.

Fixpoint first (root : node) : outcome node :=
  match root with
  | Nil => Panic
  | Node _ _ l _ =>
      match l with
      | Nil => Ok root
      | Node _ _ _ _ => first l
      end
  end.

Definition fixUp (root : node) : outcome node :=
  match root with
  | Nil => Panic
  | Node _ _ _ r =>
      root1 <- (if isRed r then rotateLeft root else Ok root) ;;
      match root1 with
      | Nil => Panic
      | Node _ _ l1 _ =>
          root2 <- (if redWithRedLeft l1 then rotateRight root1 else Ok root1) ;;
          match root2 with
          | Nil => Panic
          | Node _ _ l2 r2 =>
              if isRed l2 && isRed r2 then colorFlip root2 else Ok root2
          end
      end
  end.

Fixpoint deleteMinimum (fuel : nat) (root : node) : outcome node :=
  match fuel with
  | O => OutOfFuel
  | S fuel =>
      match root with
      | Nil => Panic
      | Node _ _ l _ =>
          if is_nil l then Ok Nil
          else
            bb <- blackWithBlackLeft l ;;
            root1 <- (if bb then moveRedLeft root else Ok root) ;;
            match root1 with
            | Nil => Panic
            | Node e1 c1 l1 r1 =>
                l2 <- deleteMinimum fuel l1 ;;
                fixUp (Node e1 c1 l2 r1)
            end
      end
  end.

(** [deleteRight] and [delete_] call each other; [deleteRight] takes the
    recursive [delete_] as its first argument. *)
Definition deleteRight (fuel : nat) (delete_ : node -> E -> outcome (node * bool))
    (root : node) (element : E) : outcome (node * bool) :=
  match root with
  | Nil => Panic
  | Node _ _ _ r =>
      bb <- blackWithBlackLeft r ;;
      root1 <- (if bb then moveRedRight root else Ok root) ;;
      match root1 with
      | Nil => Panic
      | Node e1 c1 l1 r1 =>
          if equal element e1 then
            smallest <- first r1 ;;
            match smallest with
            | Nil => Panic
            | Node se _ _ _ =>
                r2 <- deleteMinimum fuel r1 ;;
                Ok (Node se c1 l1 r2, true)
            end
          else
            '(r2, deleted) <- delete_ r1 element ;;
            Ok (Node e1 c1 l1 r2, deleted)
      end
  end.

Fixpoint delete_ (fuel : nat) (root : node) (element : E) : outcome (node * bool) :=
  match fuel with
  | O => OutOfFuel
  | S fuel =>
      match root with
      | Nil => Panic
      | Node e _ l _ =>
          if less element e then
            '(root1, deleted) <-
               (if negb (is_nil l) then
                  bb <- blackWithBlackLeft l ;;
                  root1 <- (if bb then moveRedLeft root else Ok root) ;;
                  match root1 with
                  | Nil => Panic
                  | Node e1 c1 l1 r1 =>
                      '(l2, deleted) <- delete_ fuel l1 element ;;
                      Ok (Node e1 c1 l2 r1, deleted)
                  end
                else Ok (root, false)) ;;
            root2 <- fixUp root1 ;;
            Ok (root2, deleted)
          else
            root1 <- (if isRed l then rotateRight root else Ok root) ;;
            match root1 with
            | Nil => Panic
            | Node e1 _ _ r1 =>
                if equal element e1 && is_nil r1 then Ok (Nil, true)
                else
                  '(root2, deleted) <-
                     (if negb (is_nil r1)
                      then deleteRight fuel (delete_ fuel) root1 element
                      else Ok (root1, false)) ;;
                  root3 <- fixUp root2 ;;
                  Ok (root3, deleted)
            end
      end
  end.

Definition Delete (me : SortedSet) (element : E) : outcome (SortedSet * bool) :=
  '(r, deleted) <-
     (if negb (is_nil (root me)) then
        '(r, deleted) <- delete_ (nodes (root me)) (root me) element ;;
        r' <- (if negb (is_nil r) then setRed r false else Ok r) ;;
        Ok (r', deleted)
      else Ok (root me, false)) ;;
  Ok ({| root := r;
         size := if deleted then int_wrap (size me - 1) else size me |},
      deleted).

(** ** The set operations the specification is about *)

(** [for _, element := range elements { sset.Add(element) }] *)
Fixpoint addAll (sset : SortedSet) (elements : list E) : outcome SortedSet :=
  match elements with
  | [] => Ok sset
  | element :: rest =>
      '(sset', _) <- Add sset element ;;
      addAll sset' rest
  end.

Definition New (elements : list E) : outcome SortedSet :=
  addAll empty elements.

Definition Intersection (me other : SortedSet) : outcome SortedSet :=
  intersection <- New [] ;;
  All me
    (fun element intersection =>
       if Contains other element then
         '(intersection', _) <- Add intersection element ;;
         Ok (intersection', true)
       else Ok (intersection, true))
    intersection.

(** [make([]E, 0, me.Len())] panics on a negative capacity. *)
Definition ToSlice (me : SortedSet) : outcome (list E) :=
  if (Len me <? 0)%Z then Panic
  else All me (fun element slice => Ok (slice ++ [element], true)) [].

(** ** The other operations of the set *)

Definition Clear (me : SortedSet) : SortedSet :=
  {| root := Nil; size := 0 |}.

Definition IsEmpty (me : SortedSet) : bool := (size me =? 0)%Z.

(** The loop body of [AllX] is the consumer handed to [All]; its state is
    the caller's together with the counter [i], which [i++] wraps. *)
Definition AllX {St : Type} (me : SortedSet) (start : list Z)
    (yield : Z -> E -> St -> outcome (St * bool)) (st : St) : outcome St :=
  let i := match start with [] => 0%Z | i0 :: _ => i0 end in
  r <- All me
         (fun key s =>
            '(st1, go) <- yield (snd s) key (fst s) ;;
            if go then Ok ((st1, int_wrap (snd s + 1)), true)
            else Ok ((st1, snd s), false))
         (st, i) ;;
  Ok (fst r).

Definition Difference (me other : SortedSet) : outcome SortedSet :=
  diff <- New [] ;;
  All me
    (fun element diff =>
       if negb (Contains other element) then
         '(diff', _) <- Add diff element ;;
         Ok (diff', true)
       else Ok (diff, true))
    diff.

Definition SymmetricDifference (me other : SortedSet) : outcome SortedSet :=
  diff <- New [] ;;
  diff <- All me
            (fun element diff =>
               if negb (Contains other element) then
                 '(diff', _) <- Add diff element ;;
                 Ok (diff', true)
               else Ok (diff, true))
            diff ;;
  All other
    (fun element diff =>
       if negb (Contains me element) then
         '(diff', _) <- Add diff element ;;
         Ok (diff', true)
       else Ok (diff, true))
    diff.

Definition Clone (me : SortedSet) : outcome SortedSet :=
  All me
    (fun element clone =>
       '(clone', _) <- Add clone element ;;
       Ok (clone', true))
    empty.

(** [Unite] walks [other] while it adds to the receiver; the walk is over
    the tree as it was, which is what the code does when the receiver shares
    no node with [other], as in [Union], where the receiver is a fresh clone. *)
Definition Unite (me other : SortedSet) : outcome SortedSet :=
  All other
    (fun element me =>
       '(me', _) <- Add me element ;;
       Ok (me', true))
    me.

Definition Union (me other : SortedSet) : outcome SortedSet :=
  union <- Clone me ;;
  Unite union other.

(** The state of the two loops below is the value the function returns:
    [return false] in the body stops the walk. *)
Definition IsDisjoint (me other : SortedSet) : outcome bool :=
  All me
    (fun element _ =>
       if Contains other element then Ok (false, false) else Ok (true, true))
    true.

Definition IsSubsetOf (me other : SortedSet) : outcome bool :=
  All me
    (fun element _ =>
       if negb (Contains other element) then Ok (false, false) else Ok (true, true))
    true.

Definition IsSupersetOf (me other : SortedSet) : outcome bool :=
  IsSubsetOf other me.

Definition Equal (me other : SortedSet) : outcome bool :=
  if negb (Len me =? Len other)%Z then Ok false
  else
    All me
      (fun element _ =>
         if negb (Contains other element) then Ok (false, false) else Ok (true, true))
      true.

Section Display.

Context `{Formatter E}.

(** The loop body returns on the first element; [return false] follows the
    loop. *)
Definition hasStringElements (me : SortedSet) : outcome bool :=
  All me (fun _ _ => Ok (isString E, false)) false.

Definition String (me : SortedSet) : outcome String.string :=
  has <- hasStringElements me ;;
  let format := if has then formatQ else formatV in
  slice <- ToSlice me ;;
  let '(out, _) :=
    fold_left
      (fun '(out, sep) element =>
         (String.append out (String.append sep (format element)), " "%string))
      slice ("{"%string, ""%string) in
  Ok (String.append out "}"%string).

End Display.

End Tree.

Arguments node E : clear implicits.
Arguments SortedSet E : clear implicits.

(** ** In-order contents and list-level specifications *)

Unset Implicit Arguments.

Section Specification.

Context {E : Type} {cmp : Comparable E}.

Fixpoint elements (n : node E) : list E :=
  match n with
  | Nil => []
  | Node e _ l r => elements l ++ e :: elements r
  end.

Definition lt (a b : E) : Prop := less a b = true.

(** A binary search tree is a tree whose in-order contents ascend strictly. *)
Definition bst (n : node E) : Prop := StronglySorted lt (elements n).

(** Insertion into an ascending list, leaving a list that has the element
    unchanged. *)
Fixpoint ins (x : E) (l : list E) : list E :=
  match l with
  | [] => [x]
  | y :: l' =>
      if less x y then x :: l
      else if less y x then y :: ins x l'
      else l
  end.

(** Whether that insertion adds an element. *)
Fixpoint fresh (x : E) (l : list E) : bool :=
  match l with
  | [] => true
  | y :: l' =>
      if less x y then true
      else if less y x then fresh x l'
      else false
  end.

(** [reshapes t t']: [t'] is [t] recoloured and rotated. *)
Definition reshapes (t t' : node E) : Prop :=
  elements t' = elements t /\ nodes t' = nodes t.

Inductive sublist : list E -> list E -> Prop :=
| sublist_nil : sublist [] []
| sublist_skip a l1 l2 : sublist l1 l2 -> sublist l1 (a :: l2)
| sublist_cons a l1 l2 : sublist l1 l2 -> sublist (a :: l1) (a :: l2).

(** What a deletion run on [t] guarantees: it returns, nothing it leaves is
    new, and an element that is absent changes nothing. *)
Definition delete_post (t : node E) (x : E) (res : outcome (node E * bool)) : Prop :=
  exists t' d,
    res = Ok (t', d)
    /\ sublist (elements t') (elements t)
    /\ (~ In x (elements t) -> d = false /\ elements t' = elements t).

Inductive reachable : SortedSet E -> Prop :=
| reach_empty : reachable empty
| reach_Add s x s' b : reachable s -> Add s x = Ok (s', b) -> reachable s'
| reach_Delete s x s' d : reachable s -> Delete s x = Ok (s', d) -> reachable s'.

(** The consumer run over a list, element by element, until it declines. *)
Fixpoint feed {St : Type} (yield : E -> St -> outcome (St * bool))
    (l : list E) (st : St) : outcome (St * bool) :=
  match l with
  | [] => Ok (st, true)
  | e :: l' =>
      '(st1, go) <- yield e st ;;
      if go then feed yield l' st1 else Ok (st1, false)
  end.

(** A consumer that also writes down each element it is handed and the
    answer it gives. *)
Definition recording {St : Type} (yield : E -> St -> outcome (St * bool))
    (e : E) (s : St * list (E * bool)) : outcome ((St * list (E * bool)) * bool) :=
  '(st', go) <- yield e (fst s) ;;
  Ok ((st', snd s ++ [(e, go)]), go).

(** The consumer of [for element := range ... { slice = append(slice, element) }]. *)
Definition collect (e : E) (acc : list E) : outcome (list E * bool) :=
  Ok (acc ++ [e], true).

(** The color-flip as a recolouring of a node and its two children. *)
Definition flipped (n : node E) : node E :=
  match n with
  | Nil => Nil
  | Node e c l r => Node e (negb c) (invert l) (invert r)
  end.

Definition bothChildrenRed (n : node E) : bool :=
  match n with
  | Nil => false
  | Node _ _ l r => isRed l && isRed r
  end.

(** Reference insert in the words of the specification: descend first, and
    on the way back up color-flip when both children are red, then apply the
    rotation fix-up. *)
Fixpoint insertFlipAfter (fuel : nat) (root : node E) (element : E)
    : outcome (node E * bool) :=
  match fuel with
  | O => OutOfFuel
  | S fuel =>
      match root with
      | Nil => Ok (Node element true Nil Nil, true)
      | Node e c l r =>
          '(root1, inserted) <-
             (if less element e then
                '(l', inserted) <- insertFlipAfter fuel l element ;;
                Ok (Node e c l' r, inserted)
              else if less e element then
                '(r', inserted) <- insertFlipAfter fuel r element ;;
                Ok (Node e c l r', inserted)
              else Ok (root, false)) ;;
          root3 <- insertRotation
                     (if bothChildrenRed root1 then flipped root1 else root1) ;;
          Ok (root3, inserted)
      end
  end.

(** Reference insert that color-flips on the way down: recolour when both
    children are red, descend into the recoloured node, and apply the
    rotation fix-up on the way back up. *)
Fixpoint insertFlipBefore (fuel : nat) (root : node E) (element : E)
    : outcome (node E * bool) :=
  match fuel with
  | O => OutOfFuel
  | S fuel =>
      match (if bothChildrenRed root then flipped root else root) with
      | Nil => Ok (Node element true Nil Nil, true)
      | Node e c l r =>
          '(root2, inserted) <-
             (if less element e then
                '(l', inserted) <- insertFlipBefore fuel l element ;;
                Ok (Node e c l' r, inserted)
              else if less e element then
                '(r', inserted) <- insertFlipBefore fuel r element ;;
                Ok (Node e c l r', inserted)
              else Ok (Node e c l r, false)) ;;
          root3 <- insertRotation root2 ;;
          Ok (root3, inserted)
      end
  end.

(** Where the descent of an insertion puts the element, as in-order
    contents, and whether it is new on that path. *)
Fixpoint placed (t : node E) (x : E) : list E * bool :=
  match t with
  | Nil => ([x], true)
  | Node e _ l r =>
      if less x e then (fst (placed l x) ++ e :: elements r, snd (placed l x))
      else if less e x then (elements l ++ e :: fst (placed r x), snd (placed r x))
      else (elements l ++ e :: elements r, false)
  end.

Inductive op : Type :=
| OpAdd (x : E)
| OpDelete (x : E).

Fixpoint run (ops : list op) (s : SortedSet E) : outcome (SortedSet E) :=
  match ops with
  | [] => Ok s
  | OpAdd x :: rest => '(s', _) <- Add s x ;; run rest s'
  | OpDelete x :: rest => '(s', _) <- Delete s x ;; run rest s'
  end.

(** ** Specifications of the other operations *)

(** The recorded size is the number of nodes of the tree. *)
Definition counted (s : SortedSet E) : Prop :=
  size s = Z.of_nat (nodes (root s)).

(** The consumer of the loops that add the elements satisfying [p] to an
    accumulated set and never stop the walk. *)
Definition addIf (p : E -> bool) (element : E) (acc : SortedSet E)
    : outcome (SortedSet E * bool) :=
  if p element then
    '(acc', _) <- Add acc element ;;
    Ok (acc', true)
  else Ok (acc, true).

(** The consumer of the loops that return false at the first element
    satisfying [p]. *)
Definition stopIf (p : E -> bool) (element : E) (_ : bool) : outcome (bool * bool) :=
  if p element then Ok (false, false) else Ok (true, true).

(** The consumer that collects what [AllX] yields. *)
Definition collectX (i : Z) (e : E) (acc : list (Z * E)) : outcome (list (Z * E) * bool) :=
  Ok (acc ++ [(i, e)], true).

(** The positions [i0], [i0 + 1], ... paired with the elements of a list. *)
Fixpoint numbered (i0 : Z) (l : list E) : list (Z * E) :=
  match l with
  | [] => []
  | e :: l' => (i0, e) :: numbered (i0 + 1) l'
  end.

(** Longest path from the root to a nil position. *)
Fixpoint height (t : node E) : nat :=
  match t with
  | Nil => O
  | Node _ _ l r => S (Nat.max (height l) (height r))
  end.

(** The black height of a tree that keeps the red-black invariants of the
    insertion: both subtrees have the same black height, a red node has no
    red child, and a red right child comes with a red left child (the two
    red children of a 4-node).  [None] when an invariant is broken. *)
Fixpoint blackHeight (t : node E) : option nat :=
  match t with
  | Nil => Some O
  | Node _ c l r =>
      match blackHeight l, blackHeight r with
      | Some hl, Some hr =>
          if Nat.eqb hl hr
             && (if c then negb (isRed l) && negb (isRed r) else true)
             && (if isRed r then isRed l else true)
          then Some (if c then hl else S hl)
          else None
      | _, _ => None
      end
  end.

(** A red-black tree as [Add] leaves it: the invariants hold and the root is
    black. *)
Definition isRedBlack (t : node E) : bool :=
  match blackHeight t with
  | Some _ => negb (isRed t)
  | None => false
  end.

(** What the recursive insert leaves under a red node: a red root whose two
    subtrees keep the invariants with black height [n] and whose right child
    is black.  Its left child may be red; the rotation at the parent repairs
    that. *)
Definition leansLeft (t : node E) (n : nat) : Prop :=
  exists e l r,
    t = Node e true l r
    /\ blackHeight l = Some n
    /\ blackHeight r = Some n
    /\ isRed r = false.

Section DisplaySpecification.

Context {fmtr : Formatter E}.

(** The text the specification describes: the elements, each printed by
    [format], separated by single spaces and enclosed in braces. *)
Definition render (format : E -> string) (l : list E) : string :=
  String.append "{" (String.append (String.concat " " (map format l)) "}").

(** The verb [String] prints the elements of a set with. *)
Definition verbOf (l : list E) : E -> string :=
  match l with
  | [] => formatV
  | _ :: _ => if isString E then formatQ else formatV
  end.

End DisplaySpecification.

End Specification.

Arguments op E : clear implicits.

(** The set of integers a run of operations builds from the empty set. *)
Definition setOf (ops : list (op Z)) : SortedSet Z :=
  match run ops empty with
  | Ok s => s
  | _ => empty
  end.

(** * Proofs *)

Section Proofs.

Context {E : Type} {cmp : Comparable E} {laws : ComparableLaws E}.

Lemma reshapes_refl (t : node E) : reshapes t t.
Proof. split; reflexivity. Qed.

Lemma reshapes_trans (t1 t2 t3 : node E) : reshapes t1 t2 -> reshapes t2 t3 -> reshapes t1 t3.
Proof. intros [a b] [c d]; split; congruence. Qed.

Lemma reshapes_not_nil (t t' : node E) : reshapes t t' -> t <> Nil -> t' <> Nil.
Proof.
  intros [_ Hn] Ht Ht'; subst t'. destruct t; [congruence | discriminate].
Qed.

Lemma elements_invert (t : node E) : elements (invert t) = elements t.
Proof. destruct t; reflexivity. Qed.

Lemma nodes_invert (t : node E) : nodes (invert t) = nodes t.
Proof. destruct t; reflexivity. Qed.

Lemma is_nil_invert (t : node E) : is_nil (invert t) = is_nil t.
Proof. destruct t; reflexivity. Qed.

Lemma bind_ok {A B} (m : outcome A) (k : A -> outcome B) b :
  bind m k = Ok b -> exists a, m = Ok a /\ k a = Ok b.
Proof. destruct m; simpl; intros; try discriminate; eauto. Qed.

(** ** Rotations and recolourings keep the contents *)

Ltac list_eq := simpl; repeat (rewrite <- app_assoc; simpl); reflexivity.

Ltac split_node :=
  match goal with
  | |- context [match ?x with Nil => _ | Node _ _ _ _ => _ end] => destruct x
  | |- context [if ?b then _ else _] => destruct b eqn:?
  end.

Ltac reshape_tac :=
  simpl; repeat (split_node; simpl);
  try (eexists; split; [reflexivity | split; [list_eq | simpl; lia]]).

Lemma colorFlip_spec e c (l r : node E) :
  exists t', colorFlip (Node e c l r) = Ok t' /\ reshapes (Node e c l r) t'.
Proof.
  eexists; split; [reflexivity |].
  split; simpl; rewrite ?elements_invert, ?nodes_invert; reflexivity.
Qed.

Lemma rotateLeft_spec e c (l : node E) xe xc xl xr :
  exists t', rotateLeft (Node e c l (Node xe xc xl xr)) = Ok t'
             /\ reshapes (Node e c l (Node xe xc xl xr)) t'.
Proof. reshape_tac. Qed.

Lemma rotateRight_spec e c xe xc xl xr (r : node E) :
  exists t', rotateRight (Node e c (Node xe xc xl xr) r) = Ok t'
             /\ reshapes (Node e c (Node xe xc xl xr) r) t'.
Proof. reshape_tac. Qed.

Lemma insertRotation_spec e c (l r : node E) :
  exists t', insertRotation (Node e c l r) = Ok t' /\ reshapes (Node e c l r) t'.
Proof. unfold insertRotation, redWithRedLeft. reshape_tac. Qed.

Lemma fixUp_spec e c (l r : node E) :
  exists t', fixUp (Node e c l r) = Ok t' /\ reshapes (Node e c l r) t'.
Proof.
  unfold fixUp, redWithRedLeft. simpl.
  repeat (split_node; simpl);
    try (eexists; split; [reflexivity | split;
         [simpl; rewrite ?elements_invert; list_eq
         | simpl; rewrite ?nodes_invert; simpl; lia]]).
Qed.

Ltac move_tac :=
  simpl;
  repeat (split_node; simpl);
  try (do 4 eexists; split; [reflexivity | split; [split |]];
       [ simpl; rewrite ?elements_invert; simpl; rewrite ?elements_invert; list_eq
       | simpl; rewrite ?nodes_invert; simpl; rewrite ?nodes_invert; simpl; lia
       | simpl; rewrite ?is_nil_invert; auto ]).

(** [moveRedLeft] leaves a left child where there was one... *)
Lemma moveRedLeft_spec e c (l r : node E) :
  exists e' c' l' r',
    moveRedLeft (Node e c l r) = Ok (Node e' c' l' r')
    /\ reshapes (Node e c l r) (Node e' c' l' r')
    /\ (is_nil l = false -> is_nil l' = false).
Proof.
  unfold moveRedLeft. simpl. destruct r as [|re rc rl rr]; [move_tac |].
  simpl. destruct rl as [|rle rlc rll rlr]; [move_tac |].
  simpl. destruct rlc; move_tac.
Qed.

(** ... and [moveRedRight] a right child. *)
Lemma moveRedRight_spec e c (l r : node E) :
  exists e' c' l' r',
    moveRedRight (Node e c l r) = Ok (Node e' c' l' r')
    /\ reshapes (Node e c l r) (Node e' c' l' r')
    /\ (is_nil r = false -> is_nil r' = false).
Proof.
  unfold moveRedRight. simpl. destruct l as [|le lc ll lr]; [move_tac |].
  simpl. destruct ll as [|lle llc lll llr]; [move_tac |].
  simpl. destruct llc; move_tac.
Qed.

(** ** Ascending lists *)

Lemma lt_asym (x y : E) : lt x y -> less y x = false.
Proof.
  unfold lt; intros Hxy. destruct (less y x) eqn:Hyx; [|reflexivity].
  pose proof (less_trans _ _ _ Hxy Hyx) as Hxx.
  rewrite less_irrefl in Hxx; discriminate.
Qed.

Lemma lt_neq (x y : E) : lt x y -> x <> y.
Proof.
  unfold lt; intros Hxy ->. rewrite less_irrefl in Hxy; discriminate.
Qed.

Lemma sorted_app_inv (l1 l2 : list E) e :
  StronglySorted lt (l1 ++ e :: l2) ->
  StronglySorted lt l1 /\ StronglySorted lt l2
  /\ Forall (fun y => lt y e) l1 /\ Forall (lt e) l2.
Proof.
  induction l1 as [|a l1 IH]; simpl; intros Hs.
  - inversion Hs; subst. repeat split; auto; constructor.
  - inversion Hs as [|? ? Hs' Hall]; subst.
    destruct (IH Hs') as (S1 & S2 & F1 & F2).
    rewrite Forall_app in Hall. destruct Hall as [Ha1 Ha2].
    inversion Ha2; subst.
    repeat split; auto; constructor; auto.
Qed.

Lemma sorted_app (l1 l2 : list E) e :
  StronglySorted lt l1 -> StronglySorted lt l2 ->
  Forall (fun y => lt y e) l1 -> Forall (lt e) l2 ->
  StronglySorted lt (l1 ++ e :: l2).
Proof.
  induction l1 as [|a l1 IH]; simpl; intros S1 S2 F1 F2.
  - constructor; auto.
  - inversion S1; subst. inversion F1; subst.
    constructor; [apply IH; auto |].
    rewrite Forall_app; split; [assumption |].
    constructor; [assumption |].
    eapply Forall_impl; [| exact F2]. intros b Hb. unfold lt in *.
    eapply less_trans; eauto.
Qed.

Lemma ins_app_lt x e (l1 l2 : list E) :
  less x e = true -> ins x (l1 ++ e :: l2) = ins x l1 ++ e :: l2.
Proof.
  intros Hx. induction l1 as [|a l1 IH]; simpl.
  - rewrite Hx; reflexivity.
  - destruct (less x a); [reflexivity |].
    destruct (less a x); [rewrite IH |]; reflexivity.
Qed.

Lemma ins_app_ge x e (l1 l2 : list E) :
  Forall (fun y => lt y e) l1 -> less x e = false ->
  ins x (l1 ++ e :: l2) =
  l1 ++ (if less e x then e :: ins x l2 else e :: l2).
Proof.
  intros Hall Hx. induction Hall as [|a l1 Ha _ IH]; simpl.
  - rewrite Hx; reflexivity.
  - assert (Hax : less a x = true).
    { destruct (less a x) eqn:Hax; [reflexivity |].
      destruct (less x a) eqn:Hxa.
      - pose proof (less_trans _ _ _ Hxa Ha); congruence.
      - rewrite (less_total _ _ Hxa Hax) in Hx. unfold lt in Ha; congruence. }
    rewrite (lt_asym _ _ Hax), Hax, IH; reflexivity.
Qed.

Lemma fresh_app_lt x e (l1 l2 : list E) :
  less x e = true -> fresh x (l1 ++ e :: l2) = fresh x l1.
Proof.
  intros Hx. induction l1 as [|a l1 IH]; simpl.
  - rewrite Hx; reflexivity.
  - destruct (less x a); [reflexivity |].
    destruct (less a x); [rewrite IH |]; reflexivity.
Qed.

Lemma fresh_app_ge x e (l1 l2 : list E) :
  Forall (fun y => lt y e) l1 -> less x e = false ->
  fresh x (l1 ++ e :: l2) = if less e x then fresh x l2 else false.
Proof.
  intros Hall Hx. induction Hall as [|a l1 Ha _ IH]; simpl.
  - rewrite Hx; reflexivity.
  - assert (Hax : less a x = true).
    { destruct (less a x) eqn:Hax; [reflexivity |].
      destruct (less x a) eqn:Hxa.
      - pose proof (less_trans _ _ _ Hxa Ha); congruence.
      - rewrite (less_total _ _ Hxa Hax) in Hx. unfold lt in Ha; congruence. }
    rewrite (lt_asym _ _ Hax), Hax, IH; reflexivity.
Qed.

Lemma in_ins (x y : E) (l : list E) : In y (ins x l) <-> y = x \/ In y l.
Proof.
  induction l as [|a l IH]; simpl.
  - intuition.
  - destruct (less x a) eqn:Hxa; simpl; [intuition |].
    destruct (less a x) eqn:Hax; simpl.
    + rewrite IH; intuition.
    + rewrite (less_total _ _ Hxa Hax). intuition.
Qed.

Lemma sorted_ins x (l : list E) :
  StronglySorted lt l -> StronglySorted lt (ins x l).
Proof.
  induction 1 as [|a l Hs IH Hall]; simpl.
  - repeat constructor.
  - destruct (less x a) eqn:Hxa.
    + constructor; [constructor; assumption |].
      constructor; [exact Hxa |].
      eapply Forall_impl; [| exact Hall]. intros b Hb. unfold lt in *.
      eapply less_trans; eauto.
    + destruct (less a x) eqn:Hax; [| constructor; assumption].
      constructor; [exact IH |].
      rewrite Forall_forall in *. intros b Hb.
      apply in_ins in Hb. destruct Hb as [-> | Hb]; auto.
Qed.

Lemma fresh_false_in x (l : list E) :
  StronglySorted lt l -> (fresh x l = false <-> In x l).
Proof.
  induction 1 as [|a l Hs IH Hall]; simpl.
  - split; [discriminate | tauto].
  - destruct (less x a) eqn:Hxa.
    + split; [discriminate |]. intros [-> | Hin].
      * rewrite less_irrefl in Hxa; discriminate.
      * rewrite Forall_forall in Hall. apply Hall in Hin.
        apply lt_asym in Hin; congruence.
    + destruct (less a x) eqn:Hax.
      * rewrite IH. split; [auto |]. intros [-> | Hin]; [| exact Hin].
        rewrite less_irrefl in Hax; discriminate.
      * split; [| reflexivity]. intros _. left.
        symmetry; apply less_total; assumption.
Qed.

Lemma ins_present x (l : list E) : fresh x l = false -> ins x l = l.
Proof.
  induction l as [|a l IH]; simpl; [discriminate |].
  destruct (less x a); [discriminate |].
  destruct (less a x); [| reflexivity].
  intros Hf; rewrite IH; auto.
Qed.

Lemma length_ins x (l : list E) :
  length (ins x l) = if fresh x l then S (length l) else length l.
Proof.
  induction l as [|a l IH]; simpl; [reflexivity |].
  destruct (less x a); [reflexivity |].
  destruct (less a x); simpl; [| reflexivity].
  rewrite IH. destruct (fresh x l); reflexivity.
Qed.

(** ** Insertion *)

Lemma reshapes_is_nil (t t' : node E) :
  reshapes t t' -> is_nil t = false -> is_nil t' = false.
Proof.
  intros [_ Hn]. destruct t, t'; simpl in *; auto; discriminate.
Qed.

(** The recursive insert returns, and never returns nil. *)
Lemma insert_total fuel :
  forall (t : node E) x, nodes t < fuel ->
    exists t' b, insert fuel t x = Ok (t', b) /\ is_nil t' = false.
Proof.
  induction fuel as [|fuel IH]; intros t x Hn; [lia |].
  destruct t as [|e c l r]; simpl; [eauto |].
  simpl in Hn.
  assert (Hfin : forall e' c' l' r' (b : bool),
            exists (t' : node E) (b0 : bool),
              (root3 <- insertRotation (Node e' c' l' r') ;; Ok (root3, b))
              = Ok (t', b0) /\ is_nil t' = false).
  { intros e' c' l' r' b.
    destruct (insertRotation_spec e' c' l' r') as (t' & Ht' & Hr).
    rewrite Ht'; simpl. exists t', b; split; [reflexivity |].
    eapply reshapes_is_nil; eauto. }
  destruct (isRed l && isRed r); simpl.
  - destruct (less x e).
    + destruct (IH (invert l) x) as (l2 & b & Hl & _);
        [rewrite nodes_invert; lia |].
      rewrite Hl; simpl. apply Hfin.
    + destruct (less e x).
      * destruct (IH (invert r) x) as (r2 & b & Hr & _);
          [rewrite nodes_invert; lia |].
        rewrite Hr; simpl. apply Hfin.
      * simpl. apply Hfin.
  - destruct (less x e).
    + destruct (IH l x) as (l2 & b & Hl & _); [lia |].
      rewrite Hl; simpl. apply Hfin.
    + destruct (less e x).
      * destruct (IH r x) as (r2 & b & Hr & _); [lia |].
        rewrite Hr; simpl. apply Hfin.
      * simpl. apply Hfin.
Qed.

Lemma insertRotation_elements (t t' : node E) :
  insertRotation t = Ok t' -> elements t' = elements t.
Proof.
  destruct t as [|e c l r]; [discriminate |].
  destruct (insertRotation_spec e c l r) as (t2 & Ht2 & Hr & _).
  congruence.
Qed.

(** On a search tree the recursive insert is insertion into the ascending
    contents. *)
Lemma insert_elements fuel :
  forall (t t' : node E) x b,
    bst t -> insert fuel t x = Ok (t', b) ->
    elements t' = ins x (elements t) /\ b = fresh x (elements t).
Proof.
  induction fuel as [|fuel IH]; intros t t' x b Hbst Hi; [discriminate |].
  destruct t as [|e c l r]; simpl in Hi.
  { inversion Hi; subst; split; reflexivity. }
  destruct (sorted_app_inv _ _ _ Hbst) as (Sl & Sr & Fl & Fr).
  assert (Hstep : forall c1 l1 r1,
            elements l1 = elements l -> elements r1 = elements r ->
            ('(root2, inserted) <-
               (if less x e then
                  '(l2, inserted) <- insert fuel l1 x ;;
                  Ok (Node e c1 l2 r1, inserted)
                else if less e x then
                  '(r2, inserted) <- insert fuel r1 x ;;
                  Ok (Node e c1 l1 r2, inserted)
                else Ok (Node e c1 l1 r1, false)) ;;
             root3 <- insertRotation root2 ;; Ok (root3, inserted))
            = Ok (t', b) ->
            elements t' = ins x (elements (Node e c l r))
            /\ b = fresh x (elements (Node e c l r))).
  { intros c1 l1 r1 El Er Hrun.
    apply bind_ok in Hrun. destruct Hrun as ([root2 ins2] & Hdesc & Hrot).
    apply bind_ok in Hrot. destruct Hrot as (root3 & Hrot & Hret).
    inversion Hret; subst; clear Hret.
    rewrite (insertRotation_elements _ _ Hrot). simpl.
    destruct (less x e) eqn:Hxe.
    - apply bind_ok in Hdesc. destruct Hdesc as ([l2 bl] & Hl & Hret).
      inversion Hret; subst; clear Hret.
      destruct (IH l1 l2 x b) as [El2 Eb]; [unfold bst; rewrite El; exact Sl | exact Hl |].
      simpl. rewrite ins_app_lt, fresh_app_lt by assumption.
      rewrite Eb, El2, Er, El; split; reflexivity.
    - rewrite ins_app_ge, fresh_app_ge by assumption.
      destruct (less e x) eqn:Hex.
      + apply bind_ok in Hdesc. destruct Hdesc as ([r2 br] & Hr & Hret).
        inversion Hret; subst; clear Hret.
        destruct (IH r1 r2 x b) as [Er2 Eb]; [unfold bst; rewrite Er; exact Sr | exact Hr |].
        simpl. rewrite Eb, Er2, Er, El; split; reflexivity.
      + inversion Hdesc; subst; clear Hdesc. simpl.
        rewrite El, Er; split; reflexivity. }
  destruct (isRed l && isRed r); simpl in Hi.
  - apply (Hstep (negb c) (invert l) (invert r)); auto using elements_invert.
  - apply (Hstep c l r); auto.
Qed.

Lemma Add_total (s : SortedSet E) x :
  exists s' b, Add s x = Ok (s', b)
               /\ is_nil (root s') = false /\ isRed (root s') = false.
Proof.
  unfold Add.
  destruct (insert_total (S (nodes (root s))) (root s) x) as (t' & b & Hi & Hn);
    [lia |].
  rewrite Hi; simpl. destruct t' as [|e c l r]; [discriminate |].
  simpl. eauto.
Qed.

Lemma Add_spec (s s' : SortedSet E) x b :
  bst (root s) -> Add s x = Ok (s', b) ->
  elements (root s') = ins x (elements (root s))
  /\ b = fresh x (elements (root s))
  /\ size s' = (if b then int_wrap (size s + 1) else size s).
Proof.
  unfold Add. intros Hbst Ha.
  apply bind_ok in Ha. destruct Ha as ([r ins1] & Hi & Ha).
  apply bind_ok in Ha. destruct Ha as (r' & Hr & Ha).
  inversion Ha; subst; clear Ha. simpl.
  destruct (insert_elements _ _ _ _ _ Hbst Hi) as [He Hb].
  destruct r; simpl in Hr; inversion Hr; subst. simpl in *.
  auto.
Qed.

(** ** Deletion *)

Lemma sublist_refl (l : list E) : sublist l l.
Proof. induction l; constructor; assumption. Qed.

Lemma sublist_nil_l (l : list E) : sublist [] l.
Proof. induction l; constructor; assumption. Qed.

Lemma sublist_tl (l : list E) : sublist (tl l) l.
Proof. destruct l; simpl; [constructor | constructor; apply sublist_refl]. Qed.

Lemma sublist_app (l1 l1' l2 l2' : list E) :
  sublist l1 l1' -> sublist l2 l2' -> sublist (l1 ++ l2) (l1' ++ l2').
Proof.
  induction 1; simpl; intros; auto.
  - apply sublist_skip; auto.
  - apply sublist_cons; auto.
Qed.

Lemma sublist_trans (l1 l2 l3 : list E) : sublist l1 l2 -> sublist l2 l3 -> sublist l1 l3.
Proof.
  intros H12 H23. revert l1 H12.
  induction H23 as [|a l2 l3 H23 IH|a l2 l3 H23 IH]; intros l1 H12.
  - exact H12.
  - constructor; auto.
  - inversion H12; subst; [apply sublist_skip | apply sublist_cons]; auto.
Qed.

Lemma sublist_In (l1 l2 : list E) x : sublist l1 l2 -> In x l1 -> In x l2.
Proof. induction 1; simpl; intuition. Qed.

Lemma sublist_Forall (P : E -> Prop) (l1 l2 : list E) :
  sublist l1 l2 -> Forall P l2 -> Forall P l1.
Proof.
  induction 1; intros Hall; auto; inversion Hall; subst; auto.
Qed.

Lemma sublist_sorted (l1 l2 : list E) :
  sublist l1 l2 -> StronglySorted lt l2 -> StronglySorted lt l1.
Proof.
  induction 1; intros Hs; auto; inversion Hs; subst; auto.
  constructor; auto. eapply sublist_Forall; eauto.
Qed.

Lemma sublist_length (l1 l2 : list E) : sublist l1 l2 -> length l1 <= length l2.
Proof. induction 1; simpl; lia. Qed.

Lemma elements_not_nil (t : node E) :
  is_nil t = false -> exists m rest, elements t = m :: rest.
Proof.
  destruct t as [|e c l r]; [discriminate |]; intros _; simpl.
  destruct (elements l); simpl; eauto.
Qed.

(** [first] finds the node of the least element. *)
Lemma first_spec (t : node E) :
  is_nil t = false ->
  exists se sc sl sr, first t = Ok (Node se sc sl sr)
                      /\ hd_error (elements t) = Some se.
Proof.
  induction t as [|e c l IHl r _]; [discriminate |]; intros _.
  destruct l as [|le lc ll lr].
  - simpl. eauto 6.
  - destruct IHl as (se & sc & sl & sr & Hf & Hh); [reflexivity |].
    exists se, sc, sl, sr. split; [exact Hf |].
    change (elements (Node e c (Node le lc ll lr) r))
      with (elements (Node le lc ll lr) ++ e :: elements r).
    destruct (elements (Node le lc ll lr)); simpl in *; [discriminate | exact Hh].
Qed.

Lemma borrow_left e c (l r : node E) :
  is_nil l = false ->
  exists bb e1 c1 l1 r1,
    blackWithBlackLeft l = Ok bb
    /\ (if bb then moveRedLeft (Node e c l r) else Ok (Node e c l r))
       = Ok (Node e1 c1 l1 r1)
    /\ reshapes (Node e c l r) (Node e1 c1 l1 r1)
    /\ is_nil l1 = false.
Proof.
  intros Hl. destruct l as [|le lc ll lr]; [discriminate |].
  exists (negb lc && negb (isRed ll)). simpl blackWithBlackLeft.
  destruct (negb lc && negb (isRed ll)).
  - destruct (moveRedLeft_spec e c (Node le lc ll lr) r)
      as (e1 & c1 & l1 & r1 & Hm & Hr & Hn).
    exists e1, c1, l1, r1. repeat split; auto; apply Hr.
  - exists e, c, (Node le lc ll lr), r.
    repeat split; reflexivity.
Qed.

Lemma borrow_right e c (l r : node E) :
  is_nil r = false ->
  exists bb e1 c1 l1 r1,
    blackWithBlackLeft r = Ok bb
    /\ (if bb then moveRedRight (Node e c l r) else Ok (Node e c l r))
       = Ok (Node e1 c1 l1 r1)
    /\ reshapes (Node e c l r) (Node e1 c1 l1 r1)
    /\ is_nil r1 = false.
Proof.
  intros Hl. destruct r as [|re rc rl rr]; [discriminate |].
  exists (negb rc && negb (isRed rl)). simpl blackWithBlackLeft.
  destruct (negb rc && negb (isRed rl)).
  - destruct (moveRedRight_spec e c l (Node re rc rl rr))
      as (e1 & c1 & l1 & r1 & Hm & Hr & Hn).
    exists e1, c1, l1, r1. repeat split; auto; apply Hr.
  - exists e, c, l, (Node re rc rl rr).
    repeat split; reflexivity.
Qed.

(** [deleteMinimum] returns, and what it leaves was there after the least
    element. *)
Lemma deleteMinimum_spec fuel :
  forall t : node E, is_nil t = false -> nodes t <= fuel ->
    exists t', deleteMinimum fuel t = Ok t'
               /\ sublist (elements t') (tl (elements t)).
Proof.
  induction fuel as [|fuel IH]; intros t Ht Hn.
  { destruct t; [discriminate | simpl in Hn; lia]. }
  destruct t as [|e c l r]; [discriminate |].
  simpl. destruct (is_nil l) eqn:Hl.
  { exists Nil; split; [reflexivity | apply sublist_nil_l]. }
  destruct (borrow_left e c l r Hl)
    as (bb & e1 & c1 & l1 & r1 & Hbb & Hmove & [Hel Hno] & Hl1).
  rewrite Hbb; simpl. rewrite Hmove; simpl.
  destruct (IH l1 Hl1) as (l2 & Hmin & Hsub).
  { simpl in Hno, Hn. lia. }
  rewrite Hmin; simpl.
  destruct (fixUp_spec e1 c1 l2 r1) as (t' & Hfix & [Hel' _]).
  exists t'; split; [exact Hfix |].
  rewrite Hel'. simpl in Hel. rewrite <- Hel. simpl.
  destruct (elements_not_nil l1 Hl1) as (m & rest & Hm).
  rewrite Hm in *. simpl in *.
  apply sublist_app; [exact Hsub | apply sublist_refl].
Qed.

Lemma deleteRight_spec fuel rec e c (l r : node E) x :
  (forall t, is_nil t = false -> nodes t <= fuel -> delete_post t x (rec t x)) ->
  is_nil r = false -> nodes (Node e c l r) <= S fuel ->
  exists t' d,
    deleteRight fuel rec (Node e c l r) x = Ok (t', d)
    /\ is_nil t' = false
    /\ sublist (elements t') (elements (Node e c l r))
    /\ (~ In x (elements (Node e c l r)) ->
        d = false /\ elements t' = elements (Node e c l r)).
Proof.
  intros Hrec Hr Hn.
  destruct (borrow_right e c l r Hr)
    as (bb & e1 & c1 & l1 & r1 & Hbb & Hmove & [Hel Hno] & Hr1).
  remember (elements (Node e c l r)) as orig eqn:Horig.
  clear Horig; subst orig.
  unfold deleteRight. rewrite Hbb; simpl. rewrite Hmove; simpl.
  simpl in Hno, Hn.
  assert (Hr1n : nodes r1 <= fuel) by lia.
  destruct (equal x e1) eqn:Heq.
  - destruct (first_spec r1 Hr1) as (se & sc & sl & sr & Hf & Hh).
    rewrite Hf; simpl.
    destruct (deleteMinimum_spec fuel r1 Hr1 Hr1n) as (r2 & Hmin & Hsub).
    rewrite Hmin; simpl.
    exists (Node se c1 l1 r2), true. split; [reflexivity |].
    split; [reflexivity |]. split.
    + simpl. apply sublist_app; [apply sublist_refl |].
      apply sublist_skip.
      destruct (elements r1) as [|m rest]; simpl in *; [discriminate |].
      inversion Hh; subst. apply sublist_cons; exact Hsub.
    + intros Hx. exfalso; apply Hx. apply equal_spec in Heq; subst.
      apply in_or_app; right; left; reflexivity.
  - destruct (Hrec r1 Hr1 Hr1n) as (r2 & d & Hd & Hsub & Habs).
    rewrite Hd; simpl.
    exists (Node e1 c1 l1 r2), d. split; [reflexivity |].
    split; [reflexivity |]. split.
    + simpl. apply sublist_app; [apply sublist_refl |].
      apply sublist_cons; exact Hsub.
    + intros Hx. destruct Habs as [Hd' He'].
      { intros Hin; apply Hx. apply in_or_app; right; right; exact Hin. }
      simpl. rewrite He'; auto.
Qed.

Local Arguments deleteRight : simpl never.

(** The recursive delete returns on every tree but nil. *)
Lemma delete_spec fuel :
  forall (t : node E) x, is_nil t = false -> nodes t <= fuel ->
    delete_post t x (delete_ fuel t x).
Proof.
  induction fuel as [|fuel IH]; intros t x Ht Hn.
  { destruct t; [discriminate | simpl in Hn; lia]. }
  destruct t as [|e c l r]; [discriminate |].
  unfold delete_post.
  remember (elements (Node e c l r)) as orig eqn:Horig.
  assert (Hfix : forall e2 c2 (l2 r2 : node E) d,
            sublist (elements (Node e2 c2 l2 r2)) orig ->
            (~ In x orig ->
             d = false /\ elements (Node e2 c2 l2 r2) = orig) ->
            exists t' d',
              (root2 <- fixUp (Node e2 c2 l2 r2) ;; Ok (root2, d)) = Ok (t', d')
              /\ sublist (elements t') orig
              /\ (~ In x orig -> d' = false /\ elements t' = orig)).
  { intros e2 c2 l2 r2 d Hsub Habs.
    destruct (fixUp_spec e2 c2 l2 r2) as (t' & Hf & [He _]).
    rewrite Hf; simpl. exists t', d. rewrite He. auto. }
  simpl delete_. destruct (less x e) eqn:Hxe.
  - destruct (is_nil l) eqn:Hl; simpl.
    + apply Hfix; subst orig; [apply sublist_refl | auto].
    + destruct (borrow_left e c l r Hl)
        as (bb & e1 & c1 & l1 & r1 & Hbb & Hmove & [Hel Hno] & Hl1).
      rewrite Hbb; simpl. rewrite Hmove; simpl.
      destruct (IH l1 x Hl1) as (l2 & d & Hd & Hsub & Habs).
      { simpl in Hno, Hn. lia. }
      rewrite Hd; simpl. rewrite <- Hel in Horig. subst orig.
      apply Hfix.
      * simpl. apply sublist_app; [exact Hsub | apply sublist_refl].
      * intros Hx. destruct Habs as [Hd' He'].
        { intros Hin; apply Hx. simpl. apply in_or_app; left; exact Hin. }
        simpl. rewrite He'; auto.
  - assert (Hrot : exists e1 c1 l1 r1,
               (if isRed l then rotateRight (Node e c l r) else Ok (Node e c l r))
               = Ok (Node e1 c1 l1 r1)
               /\ reshapes (Node e c l r) (Node e1 c1 l1 r1)).
    { destruct l as [|le [] ll lr]; simpl; eauto 8 using reshapes_refl.
      do 4 eexists; split; [reflexivity |]. split; [list_eq | simpl; lia]. }
    destruct Hrot as (e1 & c1 & l1 & r1 & Hrot & [Hel Hno]).
    simpl in Hrot. rewrite Hrot; simpl. rewrite <- Hel in Horig. subst orig.
    destruct (is_nil r1) eqn:Hr1.
    + destruct (equal x e1) eqn:Heq; simpl.
      * exists Nil, true. split; [reflexivity |].
        split; [apply sublist_nil_l |].
        intros Hx. exfalso; apply Hx. apply equal_spec in Heq; subst.
        apply in_or_app; right; left; reflexivity.
      * apply Hfix; [apply sublist_refl | auto].
    + rewrite andb_false_r; simpl.
      destruct (deleteRight_spec fuel (delete_ fuel) e1 c1 l1 r1 x)
        as (t2 & d & Hd & Ht2 & Hsub & Habs); auto.
      { rewrite Hno. exact Hn. }
      rewrite Hd; simpl. destruct t2 as [|e2 c2 l2 r2]; [discriminate |].
      apply Hfix; assumption.
Qed.

Lemma Delete_total (s : SortedSet E) x :
  exists s' d,
    Delete s x = Ok (s', d)
    /\ isRed (root s') = false
    /\ size s' = (if d then int_wrap (size s - 1) else size s)
    /\ sublist (elements (root s')) (elements (root s))
    /\ (~ In x (elements (root s)) ->
        d = false /\ elements (root s') = elements (root s)).
Proof.
  unfold Delete. destruct (is_nil (root s)) eqn:Hnil; simpl.
  - exists {| root := root s; size := size s |}, false. simpl.
    destruct (root s); [| discriminate].
    repeat split; auto using sublist_refl.
  - destruct (delete_spec (nodes (root s)) (root s) x Hnil (le_n _))
      as (t' & d & Hd & Hsub & Habs).
    rewrite Hd; simpl.
    destruct t' as [|e c l r]; simpl;
      eexists; exists d; (split; [reflexivity |]); simpl; auto.
Qed.

(** ** Sets the operations can build *)

Lemma reachable_bst (s : SortedSet E) : reachable s -> bst (root s).
Proof.
  induction 1 as [|s x s' b _ IH Ha|s x s' d _ IH Hd].
  - constructor.
  - destruct (Add_spec _ _ _ _ IH Ha) as (He & _).
    unfold bst. rewrite He. apply sorted_ins; exact IH.
  - destruct (Delete_total s x) as (s2 & d2 & Hd2 & _ & _ & Hsub & _).
    rewrite Hd in Hd2; inversion Hd2; subst.
    eapply sublist_sorted; eauto.
Qed.

(** ** Membership *)

Lemma containsFrom_fresh (t : node E) x :
  bst t -> containsFrom t x = negb (fresh x (elements t)).
Proof.
  induction t as [|e c l IHl r IHr]; intros Hbst; [reflexivity |].
  destruct (sorted_app_inv _ _ _ Hbst) as (Sl & Sr & Fl & Fr).
  simpl. destruct (less x e) eqn:Hxe.
  - rewrite fresh_app_lt by assumption. apply IHl; exact Sl.
  - rewrite fresh_app_ge by assumption.
    destruct (less e x); [apply IHr; exact Sr | reflexivity].
Qed.

Lemma containsFrom_In (t : node E) x :
  bst t -> (containsFrom t x = true <-> In x (elements t)).
Proof.
  intros Hbst. rewrite containsFrom_fresh by assumption.
  rewrite <- (fresh_false_in x _ Hbst).
  destruct (fresh x (elements t)); simpl; intuition congruence.
Qed.

(** ** Traversal *)

Lemma feed_app {St : Type} (yield : E -> St -> outcome (St * bool)) l1 l2 st :
  feed yield (l1 ++ l2) st =
  ('(st1, go) <- feed yield l1 st ;;
   if go then feed yield l2 st1 else Ok (st1, false)).
Proof.
  revert st. induction l1 as [|a l1 IH]; intros st; simpl; [reflexivity |].
  destruct (yield a st) as [[st1 go]| |]; simpl; try reflexivity.
  destruct go; [apply IH | reflexivity].
Qed.

(** The walk hands the consumer the in-order contents, left to right, and
    stops where the consumer declines. *)
Lemma all_feed {St : Type} (t : node E) (yield : E -> St -> outcome (St * bool)) st :
  all t yield st = feed yield (elements t) st.
Proof.
  revert st. induction t as [|e c l IHl r IHr]; intros st; [reflexivity |].
  simpl. rewrite feed_app, IHl.
  destruct (feed yield (elements l) st) as [[st1 go]| |]; simpl; try reflexivity.
  destruct go; [| reflexivity]. simpl.
  destruct (yield e st1) as [[st2 go2]| |]; simpl; try reflexivity.
  destruct go2; [apply IHr | reflexivity].
Qed.

Lemma feed_collect (l acc : list E) : feed collect l acc = Ok (acc ++ l, true).
Proof.
  revert acc. induction l as [|a l IH]; intros acc; simpl.
  - rewrite app_nil_r; reflexivity.
  - rewrite IH, <- app_assoc; reflexivity.
Qed.

Lemma All_collect (s : SortedSet E) : All s collect [] = Ok (elements (root s)).
Proof. unfold All. rewrite all_feed, feed_collect. reflexivity. Qed.

Lemma ToSlice_spec (s : SortedSet E) :
  (0 <= Len s)%Z -> ToSlice s = Ok (elements (root s)).
Proof.
  intros Hs. unfold ToSlice.
  destruct (Z.ltb_spec (Len s) 0); [lia |]. apply All_collect.
Qed.

Lemma last_false_unique (pre pre' post : list (E * bool)) x y :
  Forall (fun p => snd p = true) pre' -> snd x = false ->
  pre ++ x :: post = pre' ++ [y] -> post = [].
Proof.
  intros Hall Hx. revert pre. induction Hall as [|a pre' Ha _ IH]; intros pre Heq.
  - destruct pre as [|b pre]; simpl in Heq; inversion Heq; subst; [reflexivity |].
    destruct pre; discriminate.
  - destruct pre as [|b pre]; simpl in Heq; inversion Heq; subst.
    + congruence.
    + eapply IH; eauto.
Qed.

Lemma feed_recording {St : Type} (yield : E -> St -> outcome (St * bool)) l :
  forall st log0 st' log go,
    feed (recording yield) l (st, log0) = Ok ((st', log), go) ->
    exists ext,
      log = log0 ++ ext
      /\ if go then map fst ext = l /\ Forall (fun p => snd p = true) ext
         else exists pre e rest,
             ext = pre ++ [(e, false)]
             /\ Forall (fun p => snd p = true) pre
             /\ l = map fst pre ++ e :: rest.
Proof.
  induction l as [|a l IH]; intros st log0 st' log go Hf; simpl in Hf.
  - inversion Hf; subst. exists []. rewrite app_nil_r. repeat split; constructor.
  - unfold recording at 1 in Hf. simpl in Hf.
    destruct (yield a st) as [[st1 go1]| |]; simpl in Hf; try discriminate.
    destruct go1.
    + destruct (IH _ _ _ _ _ Hf) as (ext & Hlog & Hext).
      exists ((a, true) :: ext). rewrite Hlog, <- app_assoc. split; [reflexivity |].
      destruct go.
      * destruct Hext as [Hm Hall]. simpl. rewrite Hm. split; auto.
      * destruct Hext as (pre & e & rest & He & Hall & Hl).
        exists ((a, true) :: pre), e, rest. subst. simpl. repeat split; auto.
    + inversion Hf; subst.
      exists [(a, false)]. split; [reflexivity |].
      exists [], a, l. repeat split; constructor.
Qed.

(** ** Building sets *)

Lemma int_wrap_id z : (int_min <= z <= int_max)%Z -> int_wrap z = z.
Proof.
  unfold int_min, int_max, int_wrap. intros Hz.
  rewrite Z.mod_small; lia.
Qed.

Lemma sorted_NoDup (l : list E) : StronglySorted lt l -> NoDup l.
Proof.
  induction 1 as [|a l _ IH Hall]; constructor; auto.
  intros Hin. rewrite Forall_forall in Hall.
  apply (lt_neq a a); auto.
Qed.

(** Two ascending lists with the same members are the same list. *)
Lemma sorted_unique (l1 l2 : list E) :
  StronglySorted lt l1 -> StronglySorted lt l2 ->
  (forall y, In y l1 <-> In y l2) -> l1 = l2.
Proof.
  intros S1. revert l2. induction S1 as [|a l1 S1 IH F1]; intros l2 S2 Hm.
  - destruct l2 as [|b l2]; [reflexivity |].
    exfalso. apply (Hm b). left; reflexivity.
  - destruct S2 as [|b l2 S2 F2].
    { exfalso. apply (Hm a). left; reflexivity. }
    rewrite Forall_forall in F1, F2.
    assert (Hab : a = b).
    { destruct (proj1 (Hm a) (or_introl eq_refl)) as [Hb | Hb]; [auto |].
      destruct (proj2 (Hm b) (or_introl eq_refl)) as [Ha | Ha]; [auto |].
      exfalso. apply F1 in Ha. apply F2 in Hb.
      apply lt_asym in Ha. unfold lt in Hb; congruence. }
    subst b. f_equal. apply IH; [exact S2 |].
    intros y; split; intros Hy.
    + destruct (proj1 (Hm y) (or_intror Hy)) as [Hb | Hb]; [| exact Hb].
      subst y. exfalso. apply (lt_neq a a); auto.
    + destruct (proj2 (Hm y) (or_intror Hy)) as [Hb | Hb]; [| exact Hb].
      subst y. exfalso. apply (lt_neq a a); auto.
Qed.

Lemma Add_reachable (s : SortedSet E) x :
  reachable s ->
  exists s' b,
    Add s x = Ok (s', b)
    /\ reachable s'
    /\ elements (root s') = ins x (elements (root s))
    /\ b = fresh x (elements (root s))
    /\ size s' = (if b then int_wrap (size s + 1) else size s).
Proof.
  intros Hr. destruct (Add_total s x) as (s' & b & Ha & _).
  destruct (Add_spec s s' x b (reachable_bst _ Hr) Ha) as (He & Hb & Hs).
  exists s', b. repeat split; auto. eapply reach_Add; eauto.
Qed.

Lemma addAll_spec (l : list E) :
  forall s, reachable s ->
    exists s',
      addAll s l = Ok s'
      /\ reachable s'
      /\ (forall y, In y (elements (root s')) <-> In y (elements (root s)) \/ In y l)
      /\ ((0 <= size s)%Z -> (size s + Z.of_nat (length l) <= int_max)%Z ->
          (0 <= size s' <= size s + Z.of_nat (length l))%Z).
Proof.
  induction l as [|a l IH]; intros s Hr; simpl addAll.
  - exists s. split; [reflexivity |]. split; [exact Hr |].
    split; [intros y; simpl; tauto | simpl; lia].
  - destruct (Add_reachable s a Hr) as (s1 & b & Ha & Hr1 & He & Hb & Hs).
    rewrite Ha; simpl.
    destruct (IH s1 Hr1) as (s' & Hall & Hr' & Hm & Hsz).
    exists s'. split; [exact Hall |]. split; [exact Hr' |]. split.
    + intros y. rewrite Hm, He, in_ins. simpl. intuition.
    + intros H0 Hmax. rewrite Zpos_P_of_succ_nat in Hmax |- *.
      assert (Hs1 : (size s <= size s1 <= size s + 1)%Z).
      { rewrite Hs. destruct b; [| lia].
        rewrite int_wrap_id; unfold int_min, int_max in *; lia. }
      lia.
Qed.

Lemma reachable_empty_elements : elements (root (@empty E)) = [].
Proof. reflexivity. Qed.

(** The loop of [Intersection] over any list of candidates. *)
Lemma feed_keep_common (other : SortedSet E) (l : list E) :
  forall acc, reachable acc ->
    exists acc',
      feed (fun element intersection =>
              if Contains other element then
                '(intersection', _) <- Add intersection element ;;
                Ok (intersection', true)
              else Ok (intersection, true)) l acc = Ok (acc', true)
      /\ reachable acc'
      /\ (forall y, In y (elements (root acc')) <->
                    In y (elements (root acc))
                    \/ (In y l /\ Contains other y = true)).
Proof.
  induction l as [|a l IH]; intros acc Hr; simpl feed.
  - exists acc. split; [reflexivity |]. split; [exact Hr |].
    intros y; simpl; tauto.
  - destruct (Contains other a) eqn:Hc; simpl.
    + destruct (Add_reachable acc a Hr) as (s1 & b & Ha & Hr1 & He & _).
      rewrite Ha; simpl.
      destruct (IH s1 Hr1) as (acc' & Hf & Hr' & Hm).
      exists acc'. split; [exact Hf |]. split; [exact Hr' |].
      intros y. rewrite Hm, He, in_ins. intuition (subst; auto).
    + destruct (IH acc Hr) as (acc' & Hf & Hr' & Hm).
      exists acc'. split; [exact Hf |]. split; [exact Hr' |].
      intros y. rewrite Hm. intuition (subst; congruence).
Qed.

Lemma Intersection_spec (a b : SortedSet E) :
  reachable b ->
  exists i,
    Intersection a b = Ok i
    /\ reachable i
    /\ (forall y, In y (elements (root i)) <->
                  In y (elements (root a)) /\ In y (elements (root b))).
Proof.
  intros Hb. unfold Intersection, New. simpl. unfold All.
  rewrite all_feed.
  destruct (feed_keep_common b (elements (root a)) empty reach_empty)
    as (i & Hf & Hr & Hm).
  rewrite Hf; simpl. exists i. split; [reflexivity |]. split; [exact Hr |].
  intros y. rewrite Hm. simpl. unfold Contains.
  rewrite (containsFrom_In _ _ (reachable_bst _ Hb)). tauto.
Qed.

(** ** Display *)

Section DisplayProofs.

Context {fmtr : Formatter E}.

Lemma append_assoc (a b c : string) :
  String.append (String.append a b) c = String.append a (String.append b c).
Proof. induction a as [|ch a IH]; simpl; [reflexivity | rewrite IH; reflexivity]. Qed.

Lemma fold_render (format : E -> string) (l : list E) :
  forall out x,
    fst (fold_left
           (fun '(out, sep) element =>
              (String.append out (String.append sep (format element)), " "%string))
           l (String.append out x, " "%string))
    = String.append out (String.concat " " (x :: map format l)).
Proof.
  induction l as [|a l IH]; intros out x.
  - reflexivity.
  - cbn [fold_left map].
    replace (String.append (String.append out x) (String.append " " (format a)))
      with (String.append (String.append out (String.append x " ")) (format a))
      by (rewrite !append_assoc; reflexivity).
    rewrite IH.
    change (String.concat " " (x :: format a :: map format l))
      with (String.append x (String.append " " (String.concat " " (format a :: map format l)))).
    rewrite !append_assoc. reflexivity.
Qed.

Lemma hasStringElements_spec (s : SortedSet E) :
  hasStringElements s =
  Ok (match elements (root s) with [] => false | _ :: _ => isString E end).
Proof.
  unfold hasStringElements, All. rewrite all_feed.
  destruct (elements (root s)); reflexivity.
Qed.

Lemma String_spec (s : SortedSet E) :
  (0 <= Len s)%Z ->
  String s = Ok (render (verbOf (elements (root s))) (elements (root s))).
Proof.
  intros Hs. unfold String.
  rewrite hasStringElements_spec, (ToSlice_spec s Hs). cbn [bind].
  destruct (elements (root s)) as [|a l] eqn:Hel.
  - reflexivity.
  - cbn [verbOf]. set (format := if isString E then formatQ else formatV).
    cbn [fold_left].
    pose proof (fold_render format l "{" (format a)) as Hf.
    cbn [String.append] in Hf.
    destruct (fold_left _ l _) as [out sep] eqn:Hfold.
    cbn [fst] in Hf. subst out. reflexivity.
Qed.

End DisplayProofs.

(** ** The order of the steps of insertion *)

Lemma placed_invert (t : node E) x : placed (invert t) x = placed t x.
Proof. destruct t; reflexivity. Qed.

Lemma insert_flips_before fuel :
  forall (t : node E) x, insert fuel t x = insertFlipBefore fuel t x.
Proof.
  induction fuel as [|fuel IH]; intros t x; [reflexivity |].
  destruct t as [|e c l r]; [reflexivity |].
  simpl. destruct (isRed l && isRed r); simpl; rewrite !IH; reflexivity.
Qed.

Lemma insert_placed fuel :
  forall (t t' : node E) x b,
    insert fuel t x = Ok (t', b) -> (elements t', b) = placed t x.
Proof.
  induction fuel as [|fuel IH]; intros t t' x b Hi; [discriminate |].
  destruct t as [|e c l r]; simpl in Hi.
  { inversion Hi; subst; reflexivity. }
  assert (Hstep : forall c1 l1 r1,
            placed l1 x = placed l x -> placed r1 x = placed r x ->
            elements l1 = elements l -> elements r1 = elements r ->
            ('(root2, inserted) <-
               (if less x e then
                  '(l2, inserted) <- insert fuel l1 x ;;
                  Ok (Node e c1 l2 r1, inserted)
                else if less e x then
                  '(r2, inserted) <- insert fuel r1 x ;;
                  Ok (Node e c1 l1 r2, inserted)
                else Ok (Node e c1 l1 r1, false)) ;;
             root3 <- insertRotation root2 ;; Ok (root3, inserted))
            = Ok (t', b) ->
            (elements t', b) = placed (Node e c l r) x).
  { intros c1 l1 r1 Pl Pr El Er Hrun.
    apply bind_ok in Hrun. destruct Hrun as ([root2 ins2] & Hdesc & Hrot).
    apply bind_ok in Hrot. destruct Hrot as (root3 & Hrot & Hret).
    inversion Hret; subst; clear Hret.
    rewrite (insertRotation_elements _ _ Hrot). simpl.
    destruct (less x e).
    - apply bind_ok in Hdesc. destruct Hdesc as ([l2 bl] & Hl & Hret).
      inversion Hret; subst; clear Hret.
      apply IH in Hl. rewrite <- Pl, <- Hl. simpl. rewrite Er. reflexivity.
    - destruct (less e x).
      + apply bind_ok in Hdesc. destruct Hdesc as ([r2 br] & Hr & Hret).
        inversion Hret; subst; clear Hret.
        apply IH in Hr. rewrite <- Pr, <- Hr. simpl. rewrite El. reflexivity.
      + inversion Hdesc; subst; clear Hdesc. simpl. rewrite El, Er. reflexivity. }
  destruct (isRed l && isRed r); simpl in Hi.
  - apply (Hstep (negb c) (invert l) (invert r));
      auto using elements_invert, placed_invert.
  - apply (Hstep c l r); auto.
Qed.

Lemma flip_after_elements (t : node E) :
  elements (if bothChildrenRed t then flipped t else t) = elements t.
Proof.
  destruct t as [|e c l r]; [reflexivity |]. simpl.
  destruct (isRed l && isRed r); simpl; rewrite ?elements_invert; reflexivity.
Qed.

Lemma insertFlipAfter_placed fuel :
  forall (t t' : node E) x b,
    insertFlipAfter fuel t x = Ok (t', b) -> (elements t', b) = placed t x.
Proof.
  induction fuel as [|fuel IH]; intros t t' x b Hi; [discriminate |].
  destruct t as [|e c l r]; simpl in Hi.
  { inversion Hi; subst; reflexivity. }
  apply bind_ok in Hi. destruct Hi as ([root1 ins1] & Hdesc & Hrot).
  apply bind_ok in Hrot. destruct Hrot as (root3 & Hrot & Hret).
  inversion Hret; subst; clear Hret.
  rewrite (insertRotation_elements _ _ Hrot), flip_after_elements. simpl.
  destruct (less x e).
  - apply bind_ok in Hdesc. destruct Hdesc as ([l2 bl] & Hl & Hret).
    inversion Hret; subst; clear Hret.
    apply IH in Hl. rewrite <- Hl. reflexivity.
  - destruct (less e x).
    + apply bind_ok in Hdesc. destruct Hdesc as ([r2 br] & Hr & Hret).
      inversion Hret; subst; clear Hret.
      apply IH in Hr. rewrite <- Hr. reflexivity.
    + inversion Hdesc; subst; reflexivity.
Qed.

Lemma insertFlipAfter_total fuel :
  forall (t : node E) x, nodes t < fuel ->
    exists t' b, insertFlipAfter fuel t x = Ok (t', b).
Proof.
  induction fuel as [|fuel IH]; intros t x Hn; [lia |].
  destruct t as [|e c l r]; simpl; [eauto |].
  simpl in Hn.
  assert (Hfin : forall e' c' l' r' (b : bool),
            exists (t' : node E) (b0 : bool),
              (root3 <- insertRotation
                          (if bothChildrenRed (Node e' c' l' r')
                           then flipped (Node e' c' l' r') else Node e' c' l' r') ;;
               Ok (root3, b)) = Ok (t', b0)).
  { intros e' c' l' r' b. cbn [bothChildrenRed].
    destruct (isRed l' && isRed r'); cbn [flipped].
    - destruct (insertRotation_spec e' (negb c') (invert l') (invert r'))
        as (t' & Ht' & _).
      rewrite Ht'; simpl; eauto.
    - destruct (insertRotation_spec e' c' l' r') as (t' & Ht' & _).
      rewrite Ht'; simpl; eauto. }
  destruct (less x e).
  - destruct (IH l x) as (l2 & b & Hl); [lia |].
    rewrite Hl. apply Hfin.
  - destruct (less e x).
    + destruct (IH r x) as (r2 & b & Hr); [lia |].
      rewrite Hr. apply Hfin.
    + apply Hfin.
Qed.

(** ** Sequences of operations *)

Lemma All_same_elements {St : Type} (s s' : SortedSet E)
    (yield : E -> St -> outcome (St * bool)) st :
  elements (root s') = elements (root s) -> All s' yield st = All s yield st.
Proof. intros He. unfold All. rewrite !all_feed, He. reflexivity. Qed.

Lemma feed_total {St : Type} (yield : E -> St -> outcome (St * bool)) :
  (forall e st, exists r, yield e st = Ok r) ->
  forall l st, exists r, feed yield l st = Ok r.
Proof.
  intros Hy. induction l as [|a l IH]; intros st; simpl; [eauto |].
  destruct (Hy a st) as ([st1 go] & Ha). rewrite Ha; simpl.
  destruct go; [apply IH | eauto].
Qed.

(** Every run of operations returns, and leaves a search tree. *)
Lemma run_reachable (ops : list (op E)) :
  forall s, reachable s -> exists s', run ops s = Ok s' /\ reachable s'.
Proof.
  induction ops as [|[x|x] ops IH]; intros s Hr; simpl.
  - eauto.
  - destruct (Add_reachable s x Hr) as (s1 & b & Ha & Hr1 & _).
    rewrite Ha; simpl. apply IH; exact Hr1.
  - destruct (Delete_total s x) as (s1 & d & Hd & _).
    rewrite Hd; simpl. apply IH. eapply reach_Delete; eauto.
Qed.

Lemma run_from_empty_reachable (ops : list (op E)) s :
  run ops empty = Ok s -> reachable s.
Proof.
  intros Hrun. destruct (run_reachable ops empty reach_empty) as (s' & Hr & Hreach).
  rewrite Hrun in Hr; inversion Hr; subst s'. exact Hreach.
Qed.

(** The part of the invariant that every run keeps: the walk ascends
    strictly. *)
Lemma run_ascending (ops : list (op E)) s :
  run ops empty = Ok s ->
  exists l, All s collect [] = Ok l /\ StronglySorted lt l.
Proof.
  intros Hrun. destruct (run_reachable ops empty reach_empty) as (s' & Hr & Hreach).
  rewrite Hrun in Hr; inversion Hr; subst s'.
  exists (elements (root s)). split; [apply All_collect |].
  apply reachable_bst; exact Hreach.
Qed.

End Proofs.

#[export] Instance ComparableLaws_Z : ComparableLaws Z.
Proof.
  constructor; simpl.
  - intros x. apply Z.ltb_irrefl.
  - intros x y z Hxy Hyz. apply Z.ltb_lt in Hxy, Hyz. apply Z.ltb_lt. lia.
  - intros x y Hxy Hyx. apply Z.ltb_ge in Hxy, Hyx. lia.
  - intros x y. apply Z.eqb_eq.
Qed.

(** * Further properties of the operations *)

Section Coverage.

Context {E : Type} {cmp : Comparable E} {laws : ComparableLaws E}.

(** ** Membership and the walk *)

Lemma nodes_elements (t : node E) : nodes t = length (elements t).
Proof.
  induction t as [|e c l IHl r IHr]; [reflexivity |].
  simpl. rewrite length_app. simpl. lia.
Qed.

Lemma Contains_In (s : SortedSet E) x :
  reachable s -> (Contains s x = true <-> In x (elements (root s))).
Proof. intros Hr. apply containsFrom_In, reachable_bst, Hr. Qed.

Lemma Contains_ext (s1 s2 : SortedSet E) x :
  reachable s1 -> reachable s2 ->
  (In x (elements (root s1)) <-> In x (elements (root s2))) ->
  Contains s1 x = Contains s2 x.
Proof.
  intros H1 H2 Hiff. apply eq_true_iff_eq.
  rewrite (Contains_In s1 x H1), (Contains_In s2 x H2). exact Hiff.
Qed.

(** X1.  On every set the operations can build, [Contains] reports an
    element exactly when the walk of [All] yields it. *)
Theorem Contains_iff_yielded (s : SortedSet E) (x : E) :
  reachable s ->
  (Contains s x = true <-> exists l, All s collect [] = Ok l /\ In x l).
Proof.
  intros Hr. rewrite (Contains_In s x Hr), All_collect. split.
  - intros Hin. eauto.
  - intros (l & Hl & Hin). inversion Hl; subst. exact Hin.
Qed.

(** X2.  After [Add(x)] the set contains [x], membership of every other
    element is as before, and the call returned true exactly when [x] was
    not yet a member. *)
Theorem Contains_after_Add (s : SortedSet E) (x : E) :
  reachable s ->
  exists s',
    Add s x = Ok (s', negb (Contains s x))
    /\ Contains s' x = true
    /\ forall y, y <> x -> Contains s' y = Contains s y.
Proof.
  intros Hr.
  destruct (Add_reachable s x Hr) as (s' & b & Ha & Hr' & He & Hb & _).
  exists s'. split; [| split].
  - rewrite Ha. unfold Contains.
    rewrite (containsFrom_fresh _ _ (reachable_bst _ Hr)), negb_involutive, Hb.
    reflexivity.
  - apply (Contains_In s' x Hr'). rewrite He. apply in_ins. left; reflexivity.
  - intros y Hy. apply Contains_ext; auto.
    rewrite He, in_ins. intuition.
Qed.

(** ** Sizes *)

Lemma Add_nodes (s s' : SortedSet E) x b :
  reachable s -> Add s x = Ok (s', b) ->
  nodes (root s') = (if b then S (nodes (root s)) else nodes (root s)).
Proof.
  intros Hr Ha.
  destruct (Add_spec s s' x b (reachable_bst _ Hr) Ha) as (He & Hb & _).
  rewrite !nodes_elements, He, length_ins, <- Hb. reflexivity.
Qed.

Lemma Add_counted (s s' : SortedSet E) x b :
  reachable s -> counted s ->
  (Z.of_nat (nodes (root s)) < int_max)%Z ->
  Add s x = Ok (s', b) -> counted s'.
Proof.
  intros Hr Hc Hmax Ha. unfold counted in *.
  rewrite (Add_nodes s s' x b Hr Ha).
  destruct (Add_spec s s' x b (reachable_bst _ Hr) Ha) as (_ & _ & Hs).
  rewrite Hs, Hc. destruct b; [| reflexivity].
  rewrite Nat2Z.inj_succ. apply int_wrap_id.
  unfold int_min, int_max in *. lia.
Qed.

(** The loops that add the chosen elements of a list to a set. *)
Lemma feed_addIf (p : E -> bool) (l : list E) :
  forall acc, reachable acc ->
    exists acc',
      feed (addIf p) l acc = Ok (acc', true)
      /\ reachable acc'
      /\ (forall y, In y (elements (root acc')) <->
                    In y (elements (root acc)) \/ (In y l /\ p y = true))
      /\ nodes (root acc') <= nodes (root acc) + length l
      /\ (counted acc ->
          (Z.of_nat (nodes (root acc) + length l) <= int_max)%Z ->
          counted acc').
Proof.
  induction l as [|a l IH]; intros acc Hr; simpl feed.
  - exists acc. split; [reflexivity |]. split; [exact Hr |].
    split; [intros y; simpl; tauto |]. split; [lia | auto].
  - unfold addIf at 1. destruct (p a) eqn:Hp; simpl.
    + destruct (Add_reachable acc a Hr) as (s1 & b & Ha & Hr1 & He & _).
      rewrite Ha; simpl.
      pose proof (Add_nodes acc s1 a b Hr Ha) as Hn.
      destruct (IH s1 Hr1) as (acc' & Hf & Hr' & Hm & Hle & Hc).
      exists acc'. split; [exact Hf |]. split; [exact Hr' |].
      split; [| split].
      * intros y. rewrite Hm, He, in_ins. intuition (subst; auto).
      * simpl. destruct b; lia.
      * intros Hcount Hmax. simpl length in Hmax. apply Hc.
        -- apply (Add_counted acc s1 a b Hr Hcount); [lia | exact Ha].
        -- rewrite Hn. destruct b; lia.
    + destruct (IH acc Hr) as (acc' & Hf & Hr' & Hm & Hle & Hc).
      exists acc'. split; [exact Hf |]. split; [exact Hr' |].
      split; [| split].
      * intros y. rewrite Hm. simpl. intuition (subst; congruence).
      * simpl. lia.
      * intros Hcount Hmax. simpl length in Hmax. apply Hc; [exact Hcount | lia].
Qed.

Lemma counted_empty : counted (@empty E).
Proof. reflexivity. Qed.

(** ** Sets built by a loop of [Add] *)

Lemma All_addIf (p : E -> bool) (a acc : SortedSet E) :
  reachable acc ->
  exists acc',
    All a (addIf p) acc = Ok acc'
    /\ reachable acc'
    /\ (forall y, In y (elements (root acc')) <->
                  In y (elements (root acc))
                  \/ (In y (elements (root a)) /\ p y = true))
    /\ nodes (root acc') <= nodes (root acc) + nodes (root a)
    /\ (counted acc ->
        (Z.of_nat (nodes (root acc) + nodes (root a)) <= int_max)%Z ->
        counted acc').
Proof.
  intros Hr. unfold All. rewrite all_feed.
  destruct (feed_addIf p (elements (root a)) acc Hr)
    as (acc' & Hf & Hr' & Hm & Hle & Hc).
  rewrite Hf; simpl. exists acc'. rewrite nodes_elements with (t := root a).
  auto.
Qed.

(** What a set with an accurate size shows: [ToSlice] returns its ascending
    contents, as many as [Len] says. *)
Lemma counted_ToSlice (s : SortedSet E) :
  reachable s -> counted s ->
  exists l,
    ToSlice s = Ok l /\ StronglySorted lt l /\ Len s = Z.of_nat (length l)
    /\ l = elements (root s).
Proof.
  intros Hr Hc. exists (elements (root s)).
  split; [| split; [apply reachable_bst; exact Hr | split; [| reflexivity]]].
  - apply ToSlice_spec. unfold Len. rewrite Hc. lia.
  - unfold Len. rewrite Hc, nodes_elements. reflexivity.
Qed.

Lemma same_elements (s1 s2 : SortedSet E) :
  reachable s1 -> reachable s2 ->
  (forall y, In y (elements (root s1)) <-> In y (elements (root s2))) ->
  elements (root s1) = elements (root s2).
Proof.
  intros H1 H2 Hm.
  apply sorted_unique; [apply reachable_bst, H1 | apply reachable_bst, H2 | exact Hm].
Qed.

(** X4.  [New] on any list, repeated elements included, builds a set whose
    [ToSlice] is strictly ascending and holds exactly the members of the
    list, and whose [Len] is the number of elements [ToSlice] returns; the
    set [IsEmpty] exactly when the list is empty.  (The length of the list
    fits Go's [int].) *)
Theorem New_members (l : list E) :
  (Z.of_nat (length l) <= int_max)%Z ->
  exists s out,
    New l = Ok s
    /\ ToSlice s = Ok out
    /\ StronglySorted lt out
    /\ (forall x, In x out <-> In x l)
    /\ Len s = Z.of_nat (length out)
    /\ (forall x, Contains s x = true <-> In x l)
    /\ (IsEmpty s = true <-> l = []).
Proof.
  intros Hlen. unfold New.
  destruct (feed_addIf (fun _ => true) l empty reach_empty)
    as (s & Hf & Hr & Hm & _ & Hc).
  assert (Hs : addAll empty l = Ok s).
  { clear - Hf. revert Hf. generalize (@empty E). induction l as [|a l IH]; intros acc Hf.
    - simpl in *. inversion Hf; reflexivity.
    - simpl in *. unfold addIf at 1 in Hf. simpl in Hf.
      destruct (Add acc a) as [[s1 b]| |]; simpl in *; try discriminate.
      apply IH; exact Hf. }
  destruct (counted_ToSlice s Hr (Hc counted_empty Hlen)) as (out & Ht & Hso & Hl & He).
  exists s, out. split; [exact Hs |]. split; [exact Ht |]. split; [exact Hso |].
  assert (Hout : forall x, In x out <-> In x l).
  { intros x. rewrite He, Hm. simpl. tauto. }
  split; [exact Hout |]. split; [exact Hl |]. split.
  - intros x. rewrite (Contains_In s x Hr), <- He. apply Hout.
  - unfold IsEmpty. unfold Len in Hl. rewrite Hl, Z.eqb_eq. split.
    + intros H0. destruct out as [|a out]; [| simpl in H0; lia].
      destruct l as [|a l]; [reflexivity |].
      exfalso. apply (Hout a). left; reflexivity.
    + intros ->. destruct out as [|a out]; [reflexivity |].
      exfalso. apply (Hout a). left; reflexivity.
Qed.

(** X5.  [Clone] returns a set that yields the same sequence as the
    original and whose [Len] is the number of elements yielded; it is
    [Equal] to the original whenever the original's [Len] is accurate. *)
Theorem Clone_same (s : SortedSet E) :
  reachable s ->
  (Z.of_nat (nodes (root s)) <= int_max)%Z ->
  exists c l,
    Clone s = Ok c
    /\ ToSlice c = Ok l
    /\ Len c = Z.of_nat (length l)
    /\ (forall (St : Type) (yield : E -> St -> outcome (St * bool)) st,
          All c yield st = All s yield st)
    /\ (counted s -> Equal s c = Ok true).
Proof.
  intros Hr Hmax.
  destruct (All_addIf (fun _ => true) s empty reach_empty)
    as (c & Hc & Hrc & Hm & _ & Hcount).
  specialize (Hcount counted_empty Hmax).
  assert (He : elements (root c) = elements (root s)).
  { apply same_elements; auto. intros y. rewrite Hm. simpl. tauto. }
  destruct (counted_ToSlice c Hrc Hcount) as (l & Ht & _ & Hl & _).
  exists c, l. split; [exact Hc |]. split; [exact Ht |]. split; [exact Hl |].
  split; [intros; apply All_same_elements; exact He |].
  intros Hs. unfold Equal, Len. rewrite Hs, Hcount.
  rewrite !nodes_elements, He, Z.eqb_refl. simpl.
  unfold All. rewrite all_feed.
  assert (Hall : forall l0, (forall y, In y l0 -> Contains c y = true) ->
            feed (fun element (_ : bool) =>
                    if negb (Contains c element)
                    then Ok (false, false) else Ok (true, true)) l0 true
            = Ok (true, true)).
  { induction l0 as [|a l0 IH]; intros Hin; [reflexivity |].
    simpl. rewrite (Hin a (or_introl eq_refl)). simpl.
    apply IH. intros y Hy. apply Hin. right; exact Hy. }
  rewrite Hall; [reflexivity |].
  intros y Hy. apply (Contains_In c y Hrc). rewrite He. exact Hy.
Qed.

(** ** Set algebra *)

(** X6.  [Difference(A, B)] holds exactly the elements of [A] that are not
    in [B], and its [Len] is the number of elements it yields, in ascending
    order. *)
Theorem Difference_members (a b : SortedSet E) :
  reachable a -> reachable b ->
  (Z.of_nat (nodes (root a)) <= int_max)%Z ->
  exists d l,
    Difference a b = Ok d
    /\ (forall x, Contains d x = Contains a x && negb (Contains b x))
    /\ ToSlice d = Ok l
    /\ StronglySorted lt l
    /\ Len d = Z.of_nat (length l).
Proof.
  intros Ha Hb Hmax.
  destruct (All_addIf (fun e => negb (Contains b e)) a empty reach_empty)
    as (d & Hd & Hrd & Hm & _ & Hcount).
  destruct (counted_ToSlice d Hrd (Hcount counted_empty Hmax))
    as (l & Ht & Hso & Hl & _).
  exists d, l. split; [exact Hd |]. split; [| auto].
  intros x. apply eq_true_iff_eq.
  rewrite andb_true_iff, (Contains_In d x Hrd), (Contains_In a x Ha), Hm.
  simpl. tauto.
Qed.

(** X7.  [SymmetricDifference(A, B)] holds exactly the elements that are in
    one of [A] and [B] and not in the other, its [Len] is the number of
    elements it yields, and swapping the operands gives a set that yields
    the same sequence. *)
Theorem SymmetricDifference_members (a b : SortedSet E) :
  reachable a -> reachable b ->
  (Z.of_nat (nodes (root a) + nodes (root b)) <= int_max)%Z ->
  exists d d' l,
    SymmetricDifference a b = Ok d
    /\ SymmetricDifference b a = Ok d'
    /\ (forall x, Contains d x = xorb (Contains a x) (Contains b x))
    /\ ToSlice d = Ok l
    /\ ToSlice d' = Ok l
    /\ Len d = Z.of_nat (length l).
Proof.
  intros Ha Hb Hmax.
  assert (Hone : forall a b : SortedSet E,
            reachable a -> reachable b ->
            (Z.of_nat (nodes (root a) + nodes (root b)) <= int_max)%Z ->
            exists d,
              SymmetricDifference a b = Ok d
              /\ reachable d /\ counted d
              /\ forall x, In x (elements (root d)) <->
                           (In x (elements (root a)) /\ ~ In x (elements (root b)))
                           \/ (In x (elements (root b)) /\ ~ In x (elements (root a)))).
  { clear a b Ha Hb Hmax. intros a b Ha Hb Hmax.
    destruct (All_addIf (fun e => negb (Contains b e)) a empty reach_empty)
      as (d1 & Hd1 & Hr1 & Hm1 & Hn1 & Hc1).
    destruct (All_addIf (fun e => negb (Contains a e)) b d1 Hr1)
      as (d & Hd & Hr & Hm & _ & Hc).
    exists d. split.
    { unfold SymmetricDifference, New. simpl.
      change (All a (addIf (fun e => negb (Contains b e))) empty) with
        (All a (fun element diff =>
                  if negb (Contains b element)
                  then '(diff', _) <- Add diff element ;; Ok (diff', true)
                  else Ok (diff, true)) empty) in Hd1.
      rewrite Hd1. simpl. exact Hd. }
    split; [exact Hr |]. split.
    { apply Hc.
      - apply Hc1; [apply counted_empty | simpl in *; lia].
      - simpl in Hn1. lia. }
    intros x. rewrite Hm, Hm1. simpl.
    rewrite !negb_true_iff, <- !not_true_iff_false.
    rewrite (Contains_In a x Ha), (Contains_In b x Hb). tauto. }
  destruct (Hone a b Ha Hb Hmax) as (d & Hd & Hr & Hc & Hm).
  destruct (Hone b a Hb Ha) as (d' & Hd' & Hr' & Hc' & Hm'); [lia |].
  assert (He : elements (root d') = elements (root d)).
  { apply same_elements; auto. intros y. rewrite Hm, Hm'. tauto. }
  destruct (counted_ToSlice d Hr Hc) as (l & Ht & _ & Hl & Hel).
  destruct (counted_ToSlice d' Hr' Hc') as (l' & Ht' & _ & _ & Hel').
  exists d, d', l. split; [exact Hd |]. split; [exact Hd' |].
  split; [| split; [exact Ht | split; [| exact Hl]]].
  - intros x. apply eq_true_iff_eq.
    rewrite (Contains_In d x Hr), Hm.
    rewrite <- (Contains_In a x Ha), <- (Contains_In b x Hb).
    destruct (Contains a x), (Contains b x); simpl; intuition congruence.
  - rewrite Ht'. congruence.
Qed.

(** X8.  [Union(A, B)] holds exactly the elements that are in [A] or in
    [B], and its [Len] is the number of elements it yields, in ascending
    order. *)
Theorem Union_members (a b : SortedSet E) :
  reachable a -> reachable b ->
  (Z.of_nat (nodes (root a) + nodes (root b)) <= int_max)%Z ->
  exists u l,
    Union a b = Ok u
    /\ (forall x, Contains u x = Contains a x || Contains b x)
    /\ ToSlice u = Ok l
    /\ StronglySorted lt l
    /\ Len u = Z.of_nat (length l).
Proof.
  intros Ha Hb Hmax.
  destruct (All_addIf (fun _ => true) a empty reach_empty)
    as (c & Hc & Hrc & Hmc & Hnc & Hcc).
  destruct (All_addIf (fun _ => true) b c Hrc)
    as (u & Hu & Hru & Hmu & _ & Hcu).
  assert (Hcount : counted u).
  { apply Hcu.
    - apply Hcc; [apply counted_empty | simpl in *; lia].
    - simpl in Hnc. lia. }
  destruct (counted_ToSlice u Hru Hcount) as (l & Ht & Hso & Hl & _).
  exists u, l. split.
  { unfold Union. change (Clone a) with (All a (addIf (fun _ => true)) empty).
    rewrite Hc. simpl. exact Hu. }
  split; [| auto].
  intros x. apply eq_true_iff_eq.
  rewrite orb_true_iff, (Contains_In u x Hru), (Contains_In a x Ha),
    (Contains_In b x Hb), Hmu, Hmc.
  simpl. tauto.
Qed.

(** ** Tests on two sets *)

Lemma feed_stopIf (p : E -> bool) (l : list E) :
  feed (stopIf p) l true = Ok (negb (existsb p l), negb (existsb p l)).
Proof.
  induction l as [|a l IH]; [reflexivity |].
  simpl. unfold stopIf at 1. destruct (p a); simpl; [reflexivity | exact IH].
Qed.

Lemma All_stopIf (p : E -> bool) (s : SortedSet E) :
  All s (stopIf p) true = Ok (negb (existsb p (elements (root s)))).
Proof. unfold All. rewrite all_feed, feed_stopIf. reflexivity. Qed.

(** X9.  [IsDisjoint(A, B)] is true exactly when no element is in both
    sets, and it gives the same answer with the operands swapped. *)
Theorem IsDisjoint_iff (a b : SortedSet E) :
  reachable a -> reachable b ->
  exists r,
    IsDisjoint a b = Ok r
    /\ IsDisjoint b a = Ok r
    /\ (r = true <-> forall x, Contains a x = true -> Contains b x = false).
Proof.
  intros Ha Hb.
  assert (Hone : forall a b : SortedSet E,
            reachable a -> reachable b ->
            exists r, IsDisjoint a b = Ok r
                      /\ (r = true <->
                          forall x, Contains a x = true -> Contains b x = false)).
  { clear a b Ha Hb. intros a b Ha Hb.
    exists (negb (existsb (Contains b) (elements (root a)))).
    split; [exact (All_stopIf (Contains b) a) |].
    rewrite negb_true_iff, <- not_true_iff_false, existsb_exists. split.
    - intros Hno x Hx. apply not_true_iff_false. intros Hbx.
      apply Hno. exists x. split; [apply (Contains_In a x Ha); exact Hx | exact Hbx].
    - intros Hall (x & Hin & Hbx).
      apply (Contains_In a x Ha) in Hin. apply Hall in Hin. congruence. }
  destruct (Hone a b Ha Hb) as (r & Hr & Hiff).
  destruct (Hone b a Hb Ha) as (r' & Hr' & Hiff').
  assert (r' = r).
  { apply eq_true_iff_eq. rewrite Hiff, Hiff'. split; intros Hall x Hx.
    - apply not_true_iff_false. intros Hy. apply Hall in Hy. congruence.
    - apply not_true_iff_false. intros Hy. apply Hall in Hy. congruence. }
  subst r'. exists r. auto.
Qed.

Lemma nothing_missing (a b : SortedSet E) :
  reachable a ->
  (negb (existsb (fun e => negb (Contains b e)) (elements (root a))) = true
   <-> forall x, Contains a x = true -> Contains b x = true).
Proof.
  intros Ha.
  rewrite negb_true_iff, <- not_true_iff_false, existsb_exists. split.
  - intros Hno x Hx. destruct (Contains b x) eqn:Hbx; [reflexivity |].
    exfalso. apply Hno. exists x.
    split; [apply (Contains_In a x Ha); exact Hx | rewrite Hbx; reflexivity].
  - intros Hall (x & Hin & Hbx).
    apply (Contains_In a x Ha) in Hin. apply Hall in Hin.
    rewrite Hin in Hbx. discriminate.
Qed.

(** X10.  [IsSubsetOf(A, B)] is true exactly when every element of [A] is
    in [B]; [IsSupersetOf(B, A)] gives the same answer. *)
Theorem IsSubsetOf_iff (a b : SortedSet E) :
  reachable a ->
  exists r,
    IsSubsetOf a b = Ok r
    /\ IsSupersetOf b a = Ok r
    /\ (r = true <-> forall x, Contains a x = true -> Contains b x = true).
Proof.
  intros Ha.
  exists (negb (existsb (fun e => negb (Contains b e)) (elements (root a)))).
  split; [| split].
  - unfold IsSubsetOf.
    exact (All_stopIf (fun e => negb (Contains b e)) a).
  - unfold IsSupersetOf, IsSubsetOf.
    exact (All_stopIf (fun e => negb (Contains b e)) a).
  - apply nothing_missing; exact Ha.
Qed.

(** X11.  [Equal(A, B)] is true exactly when the two [Len]s agree and every
    element of [A] is in [B]; for two sets whose [Len] is accurate that is
    exactly when they have the same elements. *)
Theorem Equal_iff (a b : SortedSet E) :
  reachable a -> reachable b ->
  exists r,
    Equal a b = Ok r
    /\ (r = true <->
        Len a = Len b /\ forall x, Contains a x = true -> Contains b x = true)
    /\ (counted a -> counted b ->
        (r = true <-> forall x, Contains a x = Contains b x)).
Proof.
  intros Ha Hb.
  set (sub := negb (existsb (fun e => negb (Contains b e)) (elements (root a)))).
  assert (Hsub : All a (stopIf (fun e => negb (Contains b e))) true = Ok sub)
    by apply All_stopIf.
  assert (Hiff : sub = true <->
                 forall x, Contains a x = true -> Contains b x = true)
    by (apply nothing_missing; exact Ha).
  exists (if negb (Len a =? Len b)%Z then false else sub).
  assert (Hfirst : (if negb (Len a =? Len b)%Z then false else sub) = true <->
                   Len a = Len b /\
                   forall x, Contains a x = true -> Contains b x = true).
  { destruct (Z.eqb_spec (Len a) (Len b)) as [Hl | Hl]; simpl.
    - rewrite Hiff. tauto.
    - split; [discriminate | tauto]. }
  split; [| split; [exact Hfirst |]].
  - unfold Equal. destruct (negb (Len a =? Len b)%Z); [reflexivity | exact Hsub].
  - intros Hca Hcb. rewrite Hfirst. unfold Len. rewrite Hca, Hcb. split.
    + intros [Hlen Hin] x.
      apply Nat2Z.inj in Hlen. rewrite !nodes_elements in Hlen.
      assert (Hincl : incl (elements (root a)) (elements (root b))).
      { intros y Hy. apply (Contains_In b y Hb), Hin, (Contains_In a y Ha), Hy. }
      pose proof (NoDup_length_incl
                    (sorted_NoDup _ (reachable_bst _ Ha))
                    (Nat.eq_le_incl _ _ (eq_sym Hlen)) Hincl) as Hback.
      apply Contains_ext; auto. split; [apply Hincl | apply Hback].
    + intros Hsame.
      assert (He : elements (root a) = elements (root b)).
      { apply same_elements; auto. intros y.
        rewrite <- (Contains_In a y Ha), <- (Contains_In b y Hb), Hsame. tauto. }
      split.
      * rewrite !nodes_elements, He. reflexivity.
      * intros x Hx. rewrite <- Hsame. exact Hx.
Qed.

(** ** The indexed walk *)

Lemma feed_AllX (l : list E) :
  forall (acc : list (Z * E)) (i : Z),
    (int_min <= i)%Z -> (i + Z.of_nat (length l) <= int_max)%Z ->
    feed (fun key (s : list (Z * E) * Z) =>
            '(st1, go) <- collectX (snd s) key (fst s) ;;
            if go then Ok ((st1, int_wrap (snd s + 1)), true)
            else Ok ((st1, snd s), false)) l (acc, i)
    = Ok ((acc ++ numbered i l, (i + Z.of_nat (length l))%Z), true).
Proof.
  induction l as [|a l IH]; intros acc i Hmin Hmax.
  - simpl. rewrite app_nil_r, Z.add_0_r. reflexivity.
  - simpl feed. simpl length in Hmax |- *. rewrite Nat2Z.inj_succ in Hmax |- *.
    rewrite int_wrap_id by (unfold int_min, int_max in *; lia).
    transitivity
      (Ok (A := (list (Z * E) * Z) * bool)
          (((acc ++ [(i, a)]) ++ numbered (i + 1) l,
            (i + 1 + Z.of_nat (length l))%Z), true)).
    + apply IH; lia.
    + rewrite <- app_assoc.
      replace (i + 1 + Z.of_nat (length l))%Z
        with (i + Z.succ (Z.of_nat (length l)))%Z by lia.
      reflexivity.
Qed.

(** X12.  [AllX] yields the elements in the order of [All], each paired
    with its position, counting from the given start, or from zero when no
    start is given.  (The positions fit Go's [int].) *)
Theorem AllX_numbered (s : SortedSet E) (start : list Z) (l : list E) :
  All s collect [] = Ok l ->
  (int_min <= hd 0%Z start)%Z ->
  (hd 0%Z start + Z.of_nat (length l) <= int_max)%Z ->
  AllX s start collectX [] = Ok (numbered (hd 0%Z start) l).
Proof.
  intros Hl Hmin Hmax. rewrite All_collect in Hl. inversion Hl; subst l.
  unfold AllX, All. rewrite all_feed.
  replace (match start with [] => 0%Z | i0 :: _ => i0 end) with (hd 0%Z start)
    by (destruct start; reflexivity).
  rewrite (feed_AllX (elements (root s)) [] (hd 0%Z start) Hmin Hmax).
  reflexivity.
Qed.

(** ** Deleting an element that is present *)

Lemma NoDup_app_left (l1 l2 : list E) x :
  NoDup (l1 ++ l2) -> In x l1 -> ~ In x l2.
Proof.
  induction l1 as [|a l1 IH]; simpl; intros Hnd Hin; [tauto |].
  inversion Hnd as [|? ? Hna Hnd']; subst.
  destruct Hin as [-> | Hin]; [| apply IH; assumption].
  intros Hx. apply Hna. apply in_or_app; right; exact Hx.
Qed.

Lemma NoDup_app_right (l1 l2 : list E) x :
  NoDup (l1 ++ l2) -> In x l2 -> ~ In x l1.
Proof.
  intros Hnd Hin Hx. exact (NoDup_app_left l1 l2 x Hnd Hx Hin).
Qed.

(** Borrowing a red link for the left subtree leaves that subtree's
    contents at the front of the new left subtree. *)
Lemma borrow_left_keeps e c (l r : node E) :
  is_nil l = false ->
  exists bb e1 c1 l1 r1 suf,
    blackWithBlackLeft l = Ok bb
    /\ (if bb then moveRedLeft (Node e c l r) else Ok (Node e c l r))
       = Ok (Node e1 c1 l1 r1)
    /\ elements l1 = elements l ++ suf.
Proof.
  intros Hl. destruct l as [|le lc ll lr]; [discriminate |].
  exists (negb lc && negb (isRed ll)). simpl blackWithBlackLeft.
  destruct (negb lc && negb (isRed ll)).
  - unfold moveRedLeft. simpl.
    destruct r as [|re rc rl rr]; simpl.
    { do 5 eexists. split; [reflexivity |]. split; [reflexivity |].
      simpl. symmetry; apply app_nil_r. }
    destruct rl as [|rle rlc rll rlr]; simpl.
    { do 5 eexists. split; [reflexivity |]. split; [reflexivity |].
      simpl. symmetry; apply app_nil_r. }
    destruct rlc; simpl.
    + do 5 eexists. split; [reflexivity |]. split; [reflexivity |].
      simpl. reflexivity.
    + do 5 eexists. split; [reflexivity |]. split; [reflexivity |].
      simpl. symmetry; apply app_nil_r.
  - do 5 eexists. split; [reflexivity |]. split; [reflexivity |].
    symmetry; apply app_nil_r.
Qed.

(** Borrowing a red link for the right subtree, and the right rotation that
    precedes it, leave the root and the right subtree's contents at the back
    of the new root and right subtree. *)
Lemma borrow_right_keeps e c (l r : node E) :
  is_nil r = false ->
  exists bb e1 c1 l1 r1 pre,
    blackWithBlackLeft r = Ok bb
    /\ (if bb then moveRedRight (Node e c l r) else Ok (Node e c l r))
       = Ok (Node e1 c1 l1 r1)
    /\ e1 :: elements r1 = pre ++ e :: elements r.
Proof.
  intros Hr. destruct r as [|re rc rl rr]; [discriminate |].
  exists (negb rc && negb (isRed rl)). simpl blackWithBlackLeft.
  destruct (negb rc && negb (isRed rl)).
  - unfold moveRedRight. simpl.
    destruct l as [|le lc ll lr]; simpl.
    { do 4 eexists. exists []. split; [reflexivity |]. split; reflexivity. }
    destruct ll as [|lle llc lll llr]; simpl.
    { do 4 eexists. exists []. split; [reflexivity |]. split; reflexivity. }
    destruct llc; simpl.
    + do 4 eexists. exists (le :: elements lr).
      split; [reflexivity |]. split; [reflexivity |].
      simpl. rewrite ?elements_invert. reflexivity.
    + do 4 eexists. exists []. split; [reflexivity |]. split; reflexivity.
  - do 4 eexists. exists []. split; [reflexivity |]. split; reflexivity.
Qed.

Lemma lean_right_keeps e c (l r : node E) :
  exists e1 c1 l1 r1 pre,
    (if isRed l then rotateRight (Node e c l r) else Ok (Node e c l r))
    = Ok (Node e1 c1 l1 r1)
    /\ reshapes (Node e c l r) (Node e1 c1 l1 r1)
    /\ e1 :: elements r1 = pre ++ e :: elements r.
Proof.
  destruct l as [|le [] ll lr]; simpl.
  - do 4 eexists. exists []. repeat split; reflexivity.
  - do 4 eexists. exists (le :: elements lr).
    split; [reflexivity |].
    split; [split; [simpl; rewrite <- app_assoc; reflexivity | simpl; lia]
           | reflexivity].
  - do 4 eexists. exists []. repeat split; reflexivity.
Qed.

Lemma deleteRight_removes fuel rec e c (l r : node E) x :
  (forall t, is_nil t = false -> nodes t <= fuel -> bst t -> In x (elements t) ->
             exists t', rec t x = Ok (t', true) /\ ~ In x (elements t')) ->
  is_nil r = false -> nodes (Node e c l r) <= S fuel ->
  bst (Node e c l r) -> In x (e :: elements r) ->
  exists t',
    deleteRight fuel rec (Node e c l r) x = Ok (t', true)
    /\ is_nil t' = false
    /\ ~ In x (elements t').
Proof.
  intros Hrec Hr Hn Hbst Hin.
  destruct (borrow_right e c l r Hr)
    as (bb & e1 & c1 & l1 & r1 & Hbb & Hmove & [Hel Hno] & Hr1).
  destruct (borrow_right_keeps e c l r Hr)
    as (bb' & e1' & c1' & l1' & r1' & pre & Hbb' & Hmove' & Hkeep).
  rewrite Hbb in Hbb'. inversion Hbb'; subst bb'.
  rewrite Hmove in Hmove'. inversion Hmove'; subst e1' c1' l1' r1'.
  clear Hbb' Hmove'.
  assert (Hin1 : In x (e1 :: elements r1)).
  { rewrite Hkeep. apply in_or_app. right. exact Hin. }
  assert (Hs1 : StronglySorted lt (elements l1 ++ e1 :: elements r1)).
  { unfold bst in Hbst. rewrite <- Hel in Hbst. exact Hbst. }
  pose proof (sorted_NoDup _ Hs1) as Hnd.
  destruct (sorted_app_inv _ _ _ Hs1) as (_ & Sr1 & _ & _).
  assert (Hr1n : nodes r1 <= fuel) by (simpl in Hno, Hn; lia).
  unfold deleteRight. rewrite Hbb; simpl. rewrite Hmove; simpl.
  destruct (equal x e1) eqn:Heq.
  - apply equal_spec in Heq. subst x.
    destruct (first_spec r1 Hr1) as (se & sc & sl & sr & Hf & Hh).
    rewrite Hf; simpl.
    destruct (deleteMinimum_spec fuel r1 Hr1 Hr1n) as (r2 & Hmin & Hsub).
    rewrite Hmin; simpl.
    exists (Node se c1 l1 r2). split; [reflexivity |]. split; [reflexivity |].
    simpl. intros Hx. apply in_app_or in Hx. destruct Hx as [Hx | Hx].
    + apply (NoDup_app_left _ _ e1 Hnd Hx). left; reflexivity.
    + assert (Hx' : In e1 (elements r1)).
      { destruct (elements r1) as [|m rest]; simpl in *; [discriminate |].
        inversion Hh; subst m. destruct Hx as [Hx | Hx]; [left; exact Hx |].
        right. eapply sublist_In; eauto. }
      apply NoDup_remove_2 in Hnd. apply Hnd.
      apply in_or_app; right; exact Hx'.
  - assert (Hxr : In x (elements r1)).
    { destruct Hin1 as [Hx | Hx]; [| exact Hx].
      symmetry in Hx. apply equal_spec in Hx. congruence. }
    destruct (Hrec r1 Hr1 Hr1n Sr1 Hxr) as (r2 & Hd & Hnot).
    rewrite Hd; simpl.
    exists (Node e1 c1 l1 r2). split; [reflexivity |]. split; [reflexivity |].
    simpl. intros Hx. apply in_app_or in Hx. destruct Hx as [Hx | [Hx | Hx]].
    + apply (NoDup_app_left _ _ x Hnd Hx). right; exact Hxr.
    + symmetry in Hx. apply equal_spec in Hx. congruence.
    + exact (Hnot Hx).
Qed.

Local Arguments deleteRight : simpl never.

(** On a search tree the recursive delete removes the element it is given,
    and says so. *)
Lemma delete_removes fuel :
  forall (t : node E) x,
    is_nil t = false -> nodes t <= fuel -> bst t -> In x (elements t) ->
    exists t', delete_ fuel t x = Ok (t', true) /\ ~ In x (elements t').
Proof.
  induction fuel as [|fuel IH]; intros t x Ht Hn Hbst Hin.
  { destruct t; [discriminate | simpl in Hn; lia]. }
  destruct t as [|e c l r]; [discriminate |].
  assert (Hfix : forall e2 c2 (l2 r2 : node E),
            ~ In x (elements (Node e2 c2 l2 r2)) ->
            exists t',
              (root2 <- fixUp (Node e2 c2 l2 r2) ;; Ok (root2, true)) = Ok (t', true)
              /\ ~ In x (elements t')).
  { intros e2 c2 l2 r2 Hnot.
    destruct (fixUp_spec e2 c2 l2 r2) as (t' & Hf & [He _]).
    rewrite Hf; simpl. exists t'. rewrite He. auto. }
  destruct (sorted_app_inv _ _ _ Hbst) as (Sl & Sr & Fl & Fr).
  rewrite Forall_forall in Fl, Fr.
  simpl delete_. destruct (less x e) eqn:Hxe.
  - assert (Hxl : In x (elements l)).
    { simpl in Hin. apply in_app_or in Hin. destruct Hin as [Hx | [Hx | Hx]].
      - exact Hx.
      - subst x. rewrite less_irrefl in Hxe. discriminate.
      - apply Fr in Hx. apply lt_asym in Hx. congruence. }
    assert (Hl : is_nil l = false) by (destruct l; [contradiction | reflexivity]).
    rewrite Hl. simpl.
    destruct (borrow_left e c l r Hl)
      as (bb & e1 & c1 & l1 & r1 & Hbb & Hmove & [Hel Hno] & Hl1).
    destruct (borrow_left_keeps e c l r Hl)
      as (bb' & e1' & c1' & l1' & r1' & suf & Hbb' & Hmove' & Hkeep).
    rewrite Hbb in Hbb'. inversion Hbb'; subst bb'.
    rewrite Hmove in Hmove'. inversion Hmove'; subst e1' c1' l1' r1'.
    clear Hbb' Hmove'.
    rewrite Hbb; simpl. rewrite Hmove; simpl.
    assert (Hs1 : StronglySorted lt (elements l1 ++ e1 :: elements r1)).
    { unfold bst in Hbst. rewrite <- Hel in Hbst. exact Hbst. }
    pose proof (sorted_NoDup _ Hs1) as Hnd.
    destruct (sorted_app_inv _ _ _ Hs1) as (Sl1 & _ & _ & _).
    assert (Hxl1 : In x (elements l1)).
    { rewrite Hkeep. apply in_or_app. left. exact Hxl. }
    destruct (IH l1 x Hl1) as (l2 & Hd & Hnot); auto.
    { simpl in Hno, Hn. lia. }
    rewrite Hd; simpl. apply Hfix.
    simpl. intros Hx. apply in_app_or in Hx. destruct Hx as [Hx | Hx].
    + exact (Hnot Hx).
    + exact (NoDup_app_left _ _ x Hnd Hxl1 Hx).
  - assert (Hxr : In x (e :: elements r)).
    { simpl in Hin. apply in_app_or in Hin. destruct Hin as [Hx | Hx]; [| exact Hx].
      apply Fl in Hx. unfold lt in Hx. congruence. }
    destruct (lean_right_keeps e c l r)
      as (e1 & c1 & l1 & r1 & pre & Hrot & [Hel Hno] & Hkeep).
    simpl in Hrot. rewrite Hrot; simpl.
    assert (Hin1 : In x (e1 :: elements r1)).
    { rewrite Hkeep. apply in_or_app. right. exact Hxr. }
    assert (Hbst1 : bst (Node e1 c1 l1 r1)).
    { unfold bst. rewrite Hel. exact Hbst. }
    destruct (is_nil r1) eqn:Hr1.
    + assert (Hx : x = e1).
      { destruct r1; [| discriminate]. simpl in Hin1. intuition. }
      apply equal_spec in Hx. rewrite Hx. simpl.
      exists Nil. split; [reflexivity | simpl; tauto].
    + rewrite andb_false_r; simpl.
      destruct (deleteRight_removes fuel (delete_ fuel) e1 c1 l1 r1 x)
        as (t2 & Hd & Ht2 & Hnot); auto.
      { rewrite Hno. exact Hn. }
      rewrite Hd; simpl. destruct t2 as [|e2 c2 l2 r2]; [discriminate |].
      apply Hfix; assumption.
Qed.

Lemma Delete_member (s : SortedSet E) x :
  reachable s -> In x (elements (root s)) ->
  exists s',
    Delete s x = Ok (s', true)
    /\ reachable s'
    /\ ~ In x (elements (root s'))
    /\ sublist (elements (root s')) (elements (root s))
    /\ size s' = int_wrap (size s - 1).
Proof.
  intros Hr Hc.
  pose proof (reachable_bst _ Hr) as Hbst.
  destruct (Delete_total s x) as (s' & d & Hd & _ & Hs & Hsub & _).
  assert (Hr' : reachable s') by (eapply reach_Delete; eauto).
  assert (Hnil : is_nil (root s) = false)
    by (destruct (root s); [contradiction | reflexivity]).
  destruct (delete_removes (nodes (root s)) (root s) x Hnil (le_n _) Hbst Hc)
    as (t' & Ht' & Hnot).
  assert (Hd' : d = true /\ elements (root s') = elements t').
  { unfold Delete in Hd. rewrite Hnil, Ht' in Hd. simpl in Hd.
    destruct t' as [|e c l r]; simpl in Hd; inversion Hd; subst; simpl; auto. }
  destruct Hd' as [-> He]. exists s'.
  split; [exact Hd |]. split; [exact Hr' |].
  split; [rewrite He; exact Hnot |]. split; [exact Hsub | exact Hs].
Qed.

(** X3.  Deleting an element that is in the set returns true, takes one off
    [Len], and leaves a set that no longer contains the element and contains
    nothing that was not there before. *)
Theorem Delete_present (s : SortedSet E) (x : E) :
  reachable s ->
  Contains s x = true ->
  exists s',
    Delete s x = Ok (s', true)
    /\ Contains s' x = false
    /\ Len s' = int_wrap (Len s - 1)
    /\ forall y, Contains s' y = true -> Contains s y = true.
Proof.
  intros Hr Hc. apply (Contains_In s x Hr) in Hc.
  destruct (Delete_member s x Hr Hc) as (s' & Hd & Hr' & Hnot & Hsub & Hs).
  exists s'. split; [exact Hd |]. split; [| split; [exact Hs |]].
  - apply not_true_iff_false. rewrite (Contains_In s' x Hr'). exact Hnot.
  - intros y Hy. apply (Contains_In s y Hr).
    apply (Contains_In s' y Hr') in Hy. eapply sublist_In; eauto.
Qed.

(** ** Runs of operations *)

Lemma sublist_shorter (l1 l2 : list E) x :
  sublist l1 l2 -> In x l2 -> ~ In x l1 -> length l1 < length l2.
Proof.
  induction 1 as [|a l1 l2 Hs IH|a l1 l2 Hs IH]; simpl; intros Hin Hnot.
  - contradiction.
  - apply sublist_length in Hs. lia.
  - destruct Hin as [-> | Hin]; [exfalso; apply Hnot; left; reflexivity |].
    apply Nat.succ_lt_mono in IH; [lia | exact Hin | tauto].
Qed.

Lemma Delete_nodes (s s' : SortedSet E) x d :
  reachable s -> Delete s x = Ok (s', d) ->
  nodes (root s') + (if d then 1 else 0) <= nodes (root s)
  /\ size s' = (if d then int_wrap (size s - 1) else size s)
  /\ sublist (elements (root s')) (elements (root s)).
Proof.
  intros Hr Hd.
  destruct (Delete_total s x) as (s2 & d2 & Hd2 & _ & Hs & Hsub & Habs).
  rewrite Hd in Hd2. inversion Hd2; subst s2 d2.
  split; [| split; [exact Hs | exact Hsub]].
  rewrite !nodes_elements.
  destruct (Contains s x) eqn:Hc.
  - apply (Contains_In s x Hr) in Hc.
    destruct (Delete_member s x Hr Hc) as (s3 & Hd3 & _ & Hnot & _ & _).
    rewrite Hd in Hd3. inversion Hd3; subst s3 d.
    pose proof (sublist_shorter _ _ x Hsub Hc Hnot). lia.
  - destruct Habs as [-> _].
    { rewrite <- (Contains_In s x Hr). congruence. }
    apply sublist_length in Hsub. lia.
Qed.

Lemma run_invariant (ops : list (op E)) :
  forall (s : SortedSet E) (k : Z),
    reachable s ->
    (Z.of_nat (nodes (root s)) <= size s <= k)%Z ->
    (k + Z.of_nat (length ops) <= int_max)%Z ->
    exists s',
      run ops s = Ok s'
      /\ reachable s'
      /\ (Z.of_nat (nodes (root s')) <= size s' <= k + Z.of_nat (length ops))%Z
      /\ forall x, In x (elements (root s')) ->
                   In x (elements (root s)) \/ In (OpAdd x) ops.
Proof.
  induction ops as [|[x|x] ops IH]; intros s k Hr Hsz Hmax; simpl run.
  - exists s. split; [reflexivity |]. split; [exact Hr |].
    split; [simpl; lia | auto].
  - simpl length in Hmax. rewrite Nat2Z.inj_succ in Hmax.
    destruct (Add_reachable s x Hr) as (s1 & b & Ha & Hr1 & He & _ & Hs).
    pose proof (Add_nodes s s1 x b Hr Ha) as Hn.
    rewrite Ha. simpl.
    destruct (IH s1 (k + 1)%Z Hr1) as (s' & Hrun & Hr' & Hsz' & Hin).
    + rewrite Hs, Hn. destruct b; [| lia].
      rewrite int_wrap_id by (unfold int_min, int_max in *; lia). lia.
    + lia.
    + exists s'. split; [exact Hrun |]. split; [exact Hr' |]. split.
      * rewrite ?Zpos_P_of_succ_nat, ?Nat2Z.inj_succ. simpl length.
        rewrite ?Zpos_P_of_succ_nat, ?Nat2Z.inj_succ. lia.
      * intros y Hy. apply Hin in Hy. destruct Hy as [Hy | Hy].
        -- rewrite He in Hy. apply in_ins in Hy.
           destruct Hy as [-> | Hy]; [right; left; reflexivity | left; exact Hy].
        -- right. right. exact Hy.
  - simpl length in Hmax. rewrite Nat2Z.inj_succ in Hmax.
    destruct (Delete_total s x) as (s1 & d & Hd & _).
    destruct (Delete_nodes s s1 x d Hr Hd) as (Hn & Hs & Hsub).
    assert (Hr1 : reachable s1) by (eapply reach_Delete; eauto).
    rewrite Hd. simpl.
    destruct (IH s1 (k + 1)%Z Hr1) as (s' & Hrun & Hr' & Hsz' & Hin).
    + rewrite Hs. destruct d; [| lia].
      rewrite int_wrap_id by (unfold int_min, int_max in *; lia). lia.
    + lia.
    + exists s'. split; [exact Hrun |]. split; [exact Hr' |]. split.
      * rewrite ?Zpos_P_of_succ_nat, ?Nat2Z.inj_succ. simpl length.
        rewrite ?Zpos_P_of_succ_nat, ?Nat2Z.inj_succ. lia.
      * intros y Hy. apply Hin in Hy. destruct Hy as [Hy | Hy].
        -- left. eapply sublist_In; eauto.
        -- right. right. exact Hy.
Qed.

(** X17.  Every run of [Add] and [Delete] calls on the empty set (fewer
    than 2^63 of them) returns without a panic, and afterwards [ToSlice]
    returns a strictly ascending list that holds only elements some [Add]
    of the run was given; [Len] is never below the number of elements and
    never above the number of calls. *)
Theorem run_keeps_order (ops : list (op E)) :
  (Z.of_nat (length ops) <= int_max)%Z ->
  exists s l,
    run ops empty = Ok s
    /\ ToSlice s = Ok l
    /\ StronglySorted lt l
    /\ (forall x, In x l -> In (OpAdd x) ops)
    /\ (Z.of_nat (length l) <= Len s <= Z.of_nat (length ops))%Z.
Proof.
  intros Hmax.
  destruct (run_invariant ops empty 0%Z reach_empty) as (s & Hrun & Hr & Hsz & Hin).
  - simpl. lia.
  - lia.
  - exists s, (elements (root s)). split; [exact Hrun |].
    rewrite nodes_elements in Hsz.
    split; [apply ToSlice_spec; unfold Len; lia |].
    split; [apply reachable_bst; exact Hr |]. split.
    + intros x Hx. destruct (Hin x Hx) as [Hy | Hy]; [contradiction | exact Hy].
    + unfold Len. lia.
Qed.

(** ** The red-black invariants under insertion *)

Lemma blackHeight_inv e c (l r : node E) n :
  blackHeight (Node e c l r) = Some n ->
  exists m,
    blackHeight l = Some m /\ blackHeight r = Some m
    /\ n = (if c then m else S m)
    /\ (c = true -> isRed l = false /\ isRed r = false)
    /\ (isRed r = true -> isRed l = true).
Proof.
  simpl. destruct (blackHeight l) as [hl|]; [| discriminate].
  destruct (blackHeight r) as [hr|]; [| discriminate].
  destruct (Nat.eqb_spec hl hr) as [Hh | Hne]; simpl; [subst hr | discriminate].
  intros Heq. exists hl.
  destruct c, (isRed l), (isRed r); simpl in *; try discriminate;
    inversion Heq; repeat split; auto; discriminate.
Qed.

Lemma blackHeight_intro e c (l r : node E) m :
  blackHeight l = Some m -> blackHeight r = Some m ->
  (c = true -> isRed l = false /\ isRed r = false) ->
  (isRed r = true -> isRed l = true) ->
  blackHeight (Node e c l r) = Some (if c then m else S m).
Proof.
  intros Hl Hr Hc Hlean. simpl. rewrite Hl, Hr, Nat.eqb_refl. simpl.
  destruct c.
  - destruct (Hc eq_refl) as [-> ->]. reflexivity.
  - simpl. destruct (isRed r); [rewrite Hlean by reflexivity |]; reflexivity.
Qed.

Lemma blackHeight_red_children e (l r : node E) n :
  blackHeight (Node e true l r) = Some n ->
  blackHeight l = Some n /\ blackHeight r = Some n
  /\ isRed l = false /\ isRed r = false.
Proof.
  intros H. apply blackHeight_inv in H.
  destruct H as (m & Hl & Hr & -> & Hc & _).
  destruct (Hc eq_refl). auto.
Qed.

Lemma redWithRedLeft_valid (l : node E) n :
  blackHeight l = Some n -> redWithRedLeft l = false.
Proof.
  destruct l as [|e [] ll lr]; try reflexivity.
  intros H. apply blackHeight_red_children in H.
  simpl. tauto.
Qed.

(** The rotation fix-up at a black node whose subtrees came back from the
    recursive insert. *)
Lemma insertRotation_black e (l r : node E) n :
  blackHeight r = Some n ->
  blackHeight l = Some n \/ (leansLeft l n /\ isRed r = false) ->
  exists t',
    insertRotation (Node e false l r) = Ok t'
    /\ blackHeight t' = Some (S n)
    /\ isRed t' = false.
Proof.
  intros Hr [Hl | [(le & ll & lr & -> & Hll & Hlr & Hlrb) Hrb]].
  - unfold insertRotation.
    destruct (isRed r) eqn:Hrr; destruct (isRed l) eqn:Hlr; simpl.
    + rewrite (redWithRedLeft_valid l n Hl).
      eexists. split; [reflexivity |]. split; [| reflexivity].
      apply (blackHeight_intro e false l r n); auto; try discriminate; try congruence.
    + destruct r as [|re [] rl rr]; try discriminate. simpl.
      apply blackHeight_red_children in Hr.
      destruct Hr as (Hrl & Hrr' & Hrlb & Hrrb).
      assert (Hin : blackHeight (Node e true l rl) = Some n).
      { apply (blackHeight_intro e true l rl n); auto;
          try discriminate; try congruence. }
      rewrite Hlr.
      eexists. split; [reflexivity |]. split; [| reflexivity].
      apply (blackHeight_intro re false (Node e true l rl) rr n); auto;
        try discriminate; try congruence.
    + rewrite (redWithRedLeft_valid l n Hl).
      eexists. split; [reflexivity |]. split; [| reflexivity].
      apply (blackHeight_intro e false l r n); auto; try discriminate; try congruence.
    + rewrite (redWithRedLeft_valid l n Hl).
      eexists. split; [reflexivity |]. split; [| reflexivity].
      apply (blackHeight_intro e false l r n); auto; try discriminate; try congruence.
  - unfold insertRotation. simpl. rewrite Hrb. simpl.
    destruct (isRed ll) eqn:Hllr.
    + assert (Hin : blackHeight (Node e true lr r) = Some n).
      { apply (blackHeight_intro e true lr r n); auto;
          try discriminate; try congruence. }
      eexists. split; [reflexivity |]. split; [| reflexivity].
      apply (blackHeight_intro le false ll (Node e true lr r) n); auto;
        try discriminate; try congruence.
    + assert (Hin : blackHeight (Node le true ll lr) = Some n).
      { apply (blackHeight_intro le true ll lr n); auto;
          try discriminate; try congruence. }
      eexists. split; [reflexivity |]. split; [| reflexivity].
      apply (blackHeight_intro e false (Node le true ll lr) r n); auto;
        try discriminate; try congruence.
Qed.

(** The rotation fix-up at a red node. *)
Lemma insertRotation_red e (l r : node E) n :
  blackHeight l = Some n -> blackHeight r = Some n ->
  isRed l = false \/ isRed r = false ->
  exists t',
    insertRotation (Node e true l r) = Ok t'
    /\ leansLeft t' n
    /\ (isRed l = false -> isRed r = false -> t' = Node e true l r).
Proof.
  intros Hl Hr Hone. unfold insertRotation.
  destruct (isRed r) eqn:Hrr.
  - assert (Hlb : isRed l = false) by (destruct Hone; congruence).
    rewrite Hlb. simpl.
    destruct r as [|re [] rl rr]; try discriminate. simpl.
    apply blackHeight_red_children in Hr.
    destruct Hr as (Hrl & Hrr' & Hrlb & Hrrb).
    rewrite Hlb. eexists. split; [reflexivity |]. split; [| discriminate].
    exists re, (Node e true l rl), rr. split; [reflexivity |].
    split; [| auto].
    apply (blackHeight_intro e true l rl n); auto;
      try discriminate; try congruence.
  - simpl. rewrite (redWithRedLeft_valid l n Hl).
    eexists. split; [reflexivity |]. split; [| reflexivity].
    exists e, l, r. auto.
Qed.

Lemma invert_red_child (l : node E) m :
  isRed l = true -> blackHeight l = Some m ->
  blackHeight (invert l) = Some (S m)
  /\ isRed (invert l) = false
  /\ is_nil (invert l) = false
  /\ bothChildrenRed (invert l) = false.
Proof.
  destruct l as [|le [] ll lr]; try discriminate. intros _ Hl.
  apply blackHeight_red_children in Hl. destruct Hl as (Hll & Hlr & Hllb & Hlrb).
  simpl invert. split; [| split; [reflexivity | split; [reflexivity |]]].
  - apply (blackHeight_intro le false ll lr m); auto; try discriminate; congruence.
  - simpl. rewrite Hllb. reflexivity.
Qed.

(** The recursive insert keeps the black height of the subtree it is given.
    Under a black node it returns a subtree that keeps the invariants, red
    only when the node was nil or had two red children; under a red node it
    returns a red root that may have a red left child. *)
Lemma insert_keeps_invariants fuel :
  forall (t t' : node E) x b n,
    blackHeight t = Some n -> insert fuel t x = Ok (t', b) ->
    (isRed t = false ->
     blackHeight t' = Some n
     /\ (isRed t' = true -> is_nil t = true \/ bothChildrenRed t = true))
    /\ (isRed t = true -> leansLeft t' n).
Proof.
  induction fuel as [|fuel IH]; intros t t' x b n Hbh Hi; [discriminate |].
  destruct t as [|e c l r].
  { simpl in Hi, Hbh. inversion Hi; subst. inversion Hbh; subst.
    split; [| discriminate]. intros _. split; [reflexivity | auto]. }
  apply blackHeight_inv in Hbh.
  destruct Hbh as (m & Hl & Hr & Hn & Hc & Hlean).
  simpl in Hi. destruct c.
  - (* a red node: its children are black and there is no flip *)
    destruct (Hc eq_refl) as [Hlb Hrb]. subst n.
    rewrite Hlb in Hi. simpl in Hi.
    apply bind_ok in Hi. destruct Hi as ([root2 ins2] & Hdesc & Hrot).
    apply bind_ok in Hrot. destruct Hrot as (root3 & Hrot & Hret).
    inversion Hret; subst; clear Hret.
    split; [discriminate |]. intros _.
    destruct (less x e).
    + apply bind_ok in Hdesc. destruct Hdesc as ([l2 bl] & Hl2 & Hret).
      inversion Hret; subst; clear Hret.
      destruct (IH l l2 x b m Hl Hl2) as [Hblack _].
      destruct (Hblack Hlb) as [Hl2v _].
      destruct (insertRotation_red e l2 r m Hl2v Hr (or_intror Hrb))
        as (t2 & Ht2 & Hlean2 & _).
      rewrite Ht2 in Hrot. inversion Hrot; subst. exact Hlean2.
    + destruct (less e x).
      * apply bind_ok in Hdesc. destruct Hdesc as ([r2 br] & Hr2 & Hret).
        inversion Hret; subst; clear Hret.
        destruct (IH r r2 x b m Hr Hr2) as [Hblack _].
        destruct (Hblack Hrb) as [Hr2v _].
        destruct (insertRotation_red e l r2 m Hl Hr2v (or_introl Hlb))
          as (t2 & Ht2 & Hlean2 & _).
        rewrite Ht2 in Hrot. inversion Hrot; subst. exact Hlean2.
      * inversion Hdesc; subst; clear Hdesc.
        destruct (insertRotation_red e l r m Hl Hr (or_introl Hlb))
          as (t2 & Ht2 & Hlean2 & _).
        rewrite Ht2 in Hrot. inversion Hrot; subst. exact Hlean2.
  - (* a black node *)
    subst n. split; [intros _ | discriminate].
    destruct (isRed l && isRed r) eqn:Hboth; simpl in Hi.
    + (* two red children: the flip makes the node red and them black *)
      apply andb_true_iff in Hboth. destruct Hboth as [Hlr Hrr].
      destruct (invert_red_child l m Hlr Hl) as (Hil & Hilb & Hiln & Hilc).
      destruct (invert_red_child r m Hrr Hr) as (Hir & Hirb & Hirn & Hirc).
      apply bind_ok in Hi. destruct Hi as ([root2 ins2] & Hdesc & Hrot).
      apply bind_ok in Hrot. destruct Hrot as (root3 & Hrot & Hret).
      inversion Hret; subst; clear Hret.
      assert (Hdone : forall l2 r2 : node E,
                blackHeight l2 = Some (S m) -> blackHeight r2 = Some (S m) ->
                isRed l2 = false -> isRed r2 = false ->
                insertRotation (Node e true l2 r2) = Ok t' ->
                blackHeight t' = Some (S m)
                /\ (isRed t' = true ->
                    is_nil (Node e false l r) = true
                    \/ bothChildrenRed (Node e false l r) = true)).
      { intros l2 r2 Hl2 Hr2 Hl2b Hr2b Hrot2.
        destruct (insertRotation_red e l2 r2 (S m) Hl2 Hr2 (or_introl Hl2b))
          as (t2 & Ht2 & _ & Hsame).
        rewrite Ht2 in Hrot2. inversion Hrot2; subst t2.
        rewrite (Hsame Hl2b Hr2b). split.
        - apply (blackHeight_intro e true l2 r2 (S m)); auto; congruence.
        - intros _. right. simpl. rewrite Hlr, Hrr. reflexivity. }
      assert (Hblackens : forall (c0 c2 : node E),
                is_nil c0 = false -> bothChildrenRed c0 = false ->
                (isRed c2 = true -> is_nil c0 = true \/ bothChildrenRed c0 = true) ->
                isRed c2 = false).
      { intros c0 c2 Hn0 Hb0 Himp. destruct (isRed c2); [| reflexivity].
        destruct (Himp eq_refl); congruence. }
      destruct (less x e).
      * apply bind_ok in Hdesc. destruct Hdesc as ([l2 bl] & Hl2 & Hret).
        inversion Hret; subst; clear Hret.
        destruct (IH (invert l) l2 x b (S m) Hil Hl2) as [Hblack _].
        destruct (Hblack Hilb) as [Hl2v Hl2c].
        apply (Hdone l2 (invert r)); auto.
        exact (Hblackens (invert l) l2 Hiln Hilc Hl2c).
      * destruct (less e x).
        -- apply bind_ok in Hdesc. destruct Hdesc as ([r2 br] & Hr2 & Hret).
           inversion Hret; subst; clear Hret.
           destruct (IH (invert r) r2 x b (S m) Hir Hr2) as [Hblack _].
           destruct (Hblack Hirb) as [Hr2v Hr2c].
           apply (Hdone (invert l) r2); auto.
           exact (Hblackens (invert r) r2 Hirn Hirc Hr2c).
        -- inversion Hdesc; subst; clear Hdesc.
           apply (Hdone (invert l) (invert r)); auto.
    + (* no flip: the right child is black *)
      assert (Hrb : isRed r = false).
      { destruct (isRed r) eqn:Hrr; [| reflexivity].
        rewrite (Hlean eq_refl) in Hboth. discriminate. }
      apply bind_ok in Hi. destruct Hi as ([root2 ins2] & Hdesc & Hrot).
      apply bind_ok in Hrot. destruct Hrot as (root3 & Hrot & Hret).
      inversion Hret; subst; clear Hret.
      assert (Hdone : forall l2 r2 : node E,
                blackHeight r2 = Some m ->
                blackHeight l2 = Some m \/ (leansLeft l2 m /\ isRed r2 = false) ->
                insertRotation (Node e false l2 r2) = Ok t' ->
                blackHeight t' = Some (S m)
                /\ (isRed t' = true ->
                    is_nil (Node e false l r) = true
                    \/ bothChildrenRed (Node e false l r) = true)).
      { intros l2 r2 Hr2 Hl2 Hrot2.
        destruct (insertRotation_black e l2 r2 m Hr2 Hl2) as (t2 & Ht2 & Hv & Hb).
        rewrite Ht2 in Hrot2. inversion Hrot2; subst t2.
        split; [exact Hv | congruence]. }
      destruct (less x e).
      * apply bind_ok in Hdesc. destruct Hdesc as ([l2 bl] & Hl2 & Hret).
        inversion Hret; subst; clear Hret.
        destruct (IH l l2 x b m Hl Hl2) as [Hblack Hred].
        apply (Hdone l2 r); auto.
        destruct (isRed l) eqn:Hlr.
        -- right. split; [apply Hred; reflexivity | exact Hrb].
        -- left. apply Hblack. reflexivity.
      * destruct (less e x).
        -- apply bind_ok in Hdesc. destruct Hdesc as ([r2 br] & Hr2 & Hret).
           inversion Hret; subst; clear Hret.
           destruct (IH r r2 x b m Hr Hr2) as [Hblack _].
           destruct (Hblack Hrb) as [Hr2v _].
           apply (Hdone l r2); auto.
        -- inversion Hdesc; subst; clear Hdesc.
           apply (Hdone l r); auto.
Qed.

Lemma isRedBlack_inv (t : node E) :
  isRedBlack t = true -> exists n, blackHeight t = Some n /\ isRed t = false.
Proof.
  unfold isRedBlack. destruct (blackHeight t) as [n|]; [| discriminate].
  intros Hb. exists n. split; [reflexivity |].
  destruct (isRed t); [discriminate | reflexivity].
Qed.

(** [Add] on a tree with a black root that keeps the invariants: the black
    height stays, or grows by one when the root comes back red. *)
Lemma Add_black_height (s : SortedSet E) x n :
  blackHeight (root s) = Some n -> isRed (root s) = false ->
  exists s' b n',
    Add s x = Ok (s', b)
    /\ blackHeight (root s') = Some n'
    /\ isRed (root s') = false
    /\ (n' = n \/ n' = S n).
Proof.
  intros Hn Hblack. unfold Add.
  destruct (insert_total (S (nodes (root s))) (root s) x (Nat.lt_succ_diag_r _))
    as (t' & b & Hi & Hnil).
  rewrite Hi. simpl.
  destruct (insert_keeps_invariants _ _ _ _ _ _ Hn Hi) as [Hkeep _].
  destruct (Hkeep Hblack) as [Hv _].
  destruct t' as [|e c l r]; [discriminate |]. simpl.
  apply blackHeight_inv in Hv. destruct Hv as (m & Hl & Hr & Hnm & _ & Hlean).
  eexists _, b, (S m). split; [reflexivity |]. simpl root.
  split; [| split; [reflexivity |]].
  - apply (blackHeight_intro e false l r m Hl Hr); [discriminate | exact Hlean].
  - destruct c; [right | left]; congruence.
Qed.

(** X13.  [Add] keeps the red-black invariants: on a tree with a black root
    in which every path to a nil position crosses the same number of black
    nodes, no red node has a red child and a red right child comes with a
    red left sibling, it returns a tree with the same properties. *)
Theorem Add_keeps_red_black (s : SortedSet E) (x : E) :
  isRedBlack (root s) = true ->
  exists s' b, Add s x = Ok (s', b) /\ isRedBlack (root s') = true.
Proof.
  intros Hrb. apply isRedBlack_inv in Hrb. destruct Hrb as (n & Hn & Hblack).
  destruct (Add_black_height s x n Hn Hblack) as (s' & b & n' & Ha & Hn' & Hb' & _).
  exists s', b. split; [exact Ha |].
  unfold isRedBlack. rewrite Hn', Hb'. reflexivity.
Qed.

Lemma blackHeight_bounds (t : node E) :
  forall n, blackHeight t = Some n ->
    height t <= 2 * n + (if isRed t then 1 else 0)
    /\ 2 ^ n <= nodes t + 1.
Proof.
  induction t as [|e c l IHl r IHr]; intros n Hn.
  - simpl in Hn. inversion Hn; subst. simpl. lia.
  - apply blackHeight_inv in Hn. destruct Hn as (m & Hl & Hr & -> & Hc & _).
    destruct (IHl m Hl) as [Hhl Hnl]. destruct (IHr m Hr) as [Hhr Hnr].
    destruct c; simpl height; simpl nodes; simpl isRed.
    + destruct (Hc eq_refl) as [Hlb Hrb]. rewrite Hlb in Hhl. rewrite Hrb in Hhr.
      split; lia.
    + assert (isRedl : (if isRed l then 1 else 0) <= 1) by (destruct (isRed l); lia).
      assert (isRedr : (if isRed r then 1 else 0) <= 1) by (destruct (isRed r); lia).
      split; [lia |]. rewrite Nat.pow_succ_r'. lia.
Qed.

Lemma red_black_height (t : node E) :
  isRedBlack t = true -> 2 ^ height t <= (nodes t + 1) ^ 2.
Proof.
  intros Hrb. apply isRedBlack_inv in Hrb. destruct Hrb as (n & Hn & Hblack).
  destruct (blackHeight_bounds t n Hn) as [Hh Hnodes]. rewrite Hblack in Hh.
  transitivity (2 ^ (n * 2)).
  - apply Nat.pow_le_mono_r; lia.
  - rewrite Nat.pow_mul_r. apply Nat.pow_le_mono_l. exact Hnodes.
Qed.

Lemma addAll_red_black (l : list E) :
  forall s, isRedBlack (root s) = true ->
    exists s', addAll s l = Ok s' /\ isRedBlack (root s') = true.
Proof.
  induction l as [|a l IH]; intros s Hs; simpl.
  - eauto.
  - pose proof Hs as Hs0. apply isRedBlack_inv in Hs0.
    destruct Hs0 as (n & Hn & Hblack).
    destruct (Add_black_height s a n Hn Hblack) as (s1 & b & n' & Ha & Hn' & Hb' & _).
    rewrite Ha. simpl. apply IH.
    unfold isRedBlack. rewrite Hn', Hb'. reflexivity.
Qed.

(** X14.  A set built by [New] from any list is balanced: its tree keeps the
    red-black invariants, so the height [h] of a tree of [n] nodes satisfies
    [2 ^ h <= (n + 1) ^ 2], that is, [h <= 2 * log2 (n + 1)]. *)
Theorem New_balanced (l : list E) :
  exists s,
    New l = Ok s
    /\ isRedBlack (root s) = true
    /\ 2 ^ height (root s) <= (nodes (root s) + 1) ^ 2.
Proof.
  destruct (addAll_red_black l empty eq_refl) as (s & Hs & Hrb).
  exists s. split; [exact Hs |]. split; [exact Hrb |].
  apply red_black_height; exact Hrb.
Qed.

(** X15.  The rebalancing steps return on every node, and none of them
    changes the in-order contents or the number of nodes: the color flip,
    the rotation fix-up of the insertion, the two borrowing steps and the
    fix-up of the deletion. *)
Theorem rebalancing_keeps_contents e c (l r : node E) :
  let t := Node e c l r in
  (exists t', colorFlip t = Ok t'
              /\ elements t' = elements t /\ nodes t' = nodes t)
  /\ (exists t', insertRotation t = Ok t'
                 /\ elements t' = elements t /\ nodes t' = nodes t)
  /\ (exists t', moveRedLeft t = Ok t'
                 /\ elements t' = elements t /\ nodes t' = nodes t)
  /\ (exists t', moveRedRight t = Ok t'
                 /\ elements t' = elements t /\ nodes t' = nodes t)
  /\ (exists t', fixUp t = Ok t'
                 /\ elements t' = elements t /\ nodes t' = nodes t).
Proof.
  intros t. subst t.
  split; [| split; [| split; [| split]]].
  - destruct (colorFlip_spec e c l r) as (t' & Ht & He & Hn). eauto.
  - destruct (insertRotation_spec e c l r) as (t' & Ht & He & Hn). eauto.
  - destruct (moveRedLeft_spec e c l r) as (e' & c' & l' & r' & Ht & [He Hn] & _).
    eauto.
  - destruct (moveRedRight_spec e c l r) as (e' & c' & l' & r' & Ht & [He Hn] & _).
    eauto.
  - destruct (fixUp_spec e c l r) as (t' & Ht & He & Hn). eauto.
Qed.

(** X16.  [Intersection(A, B)] holds exactly the elements that are in both
    sets, and its [Len] is the number of elements it yields, in ascending
    order. *)
Theorem Intersection_members (a b : SortedSet E) :
  reachable a -> reachable b ->
  (Z.of_nat (nodes (root a)) <= int_max)%Z ->
  exists i l,
    Intersection a b = Ok i
    /\ (forall x, Contains i x = Contains a x && Contains b x)
    /\ ToSlice i = Ok l
    /\ StronglySorted lt l
    /\ Len i = Z.of_nat (length l).
Proof.
  intros Ha Hb Hmax.
  destruct (All_addIf (Contains b) a empty reach_empty)
    as (i & Hi & Hri & Hm & _ & Hcount).
  destruct (counted_ToSlice i Hri (Hcount counted_empty Hmax))
    as (l & Ht & Hso & Hl & _).
  exists i, l. split; [exact Hi |]. split; [| auto].
  intros x. apply eq_true_iff_eq.
  rewrite andb_true_iff, (Contains_In i x Hri), (Contains_In a x Ha), Hm.
  simpl. tauto.
Qed.

End Coverage.

(** * The claims *)

Section Claims.

Context {E : Type} {cmp : Comparable E} {laws : ComparableLaws E}.

(** C3 (as amended).  On every set the operations can build, adding an
    element that is already present returns false and leaves the length and
    the sequence that [All] yields unchanged.  Adding the same element twice
    changes the length by exactly one in total when the element was absent
    (one [size++] of Go's [int]) and not at all when it was present; in both
    cases the second call returns false. *)
Theorem Add_twice (s : SortedSet E) (x : E) :
  reachable s ->
  (Contains s x = true ->
   exists s',
     Add s x = Ok (s', false)
     /\ Len s' = Len s
     /\ forall (St : Type) (yield : E -> St -> outcome (St * bool)) st,
         All s' yield st = All s yield st)
  /\ exists s1 s2,
       Add s x = Ok (s1, negb (Contains s x))
       /\ Add s1 x = Ok (s2, false)
       /\ Len s2 = (if Contains s x then Len s else int_wrap (Len s + 1))
       /\ (Contains s x = false -> (int_min <= Len s < int_max)%Z ->
           Len s2 = (Len s + 1)%Z).
Proof.
  intros Hr.
  pose proof (reachable_bst _ Hr) as Hbst.
  destruct (Add_reachable s x Hr) as (s1 & b1 & Ha1 & Hr1 & He1 & Hb1 & Hs1).
  destruct (Add_reachable s1 x Hr1) as (s2 & b2 & Ha2 & Hr2 & He2 & Hb2 & Hs2).
  assert (Hc : Contains s x = negb (fresh x (elements (root s)))).
  { apply containsFrom_fresh; exact Hbst. }
  assert (Hb2f : fresh x (elements (root s1)) = false).
  { apply fresh_false_in; [apply reachable_bst; exact Hr1 |].
    rewrite He1. apply in_ins. left; reflexivity. }
  rewrite Hb2f in Hb2. subst b2. split.
  - intros Hx. rewrite Hx in Hc.
    assert (Hf : fresh x (elements (root s)) = false)
      by (destruct (fresh x (elements (root s))); [discriminate | reflexivity]).
    rewrite Hf in Hb1. subst b1. exists s1. split; [exact Ha1 |].
    split; [exact Hs1 |].
    intros St yield st. apply All_same_elements.
    rewrite He1. apply ins_present; exact Hf.
  - exists s1, s2. rewrite Hc, <- Hb1, negb_involutive.
    split; [exact Ha1 |]. split; [exact Ha2 |].
    unfold Len. rewrite Hs2, Hs1.
    split; [destruct b1; reflexivity |].
    intros Hb Hrange. destruct b1; [| discriminate].
    apply int_wrap_id. unfold int_min, int_max in *. lia.
Qed.

(** C4.  On every set the operations can build, deleting an element that is
    not in it returns false and leaves the length and the sequence that
    [All] yields unchanged.  On an empty set [Delete] returns false without
    entering the recursive delete, which cannot return on a nil root. *)
Theorem Delete_absent (s : SortedSet E) (x : E) :
  reachable s ->
  Contains s x = false ->
  (exists s',
     Delete s x = Ok (s', false)
     /\ Len s' = Len s
     /\ forall (St : Type) (yield : E -> St -> outcome (St * bool)) st,
         All s' yield st = All s yield st)
  /\ (forall n, Delete {| root := Nil; size := n |} x
                = Ok ({| root := Nil; size := n |}, false))
  /\ (forall fuel r, delete_ fuel (@Nil E) x <> Ok r).
Proof.
  intros Hr Hc. split; [| split].
  - destruct (Delete_total s x) as (s' & d & Hd & _ & Hs & _ & Habs).
    destruct Habs as [Hd' He].
    { rewrite <- (containsFrom_In _ _ (reachable_bst _ Hr)).
      unfold Contains in Hc. rewrite Hc. discriminate. }
    subst d. exists s'. split; [exact Hd |]. split; [exact Hs |].
    intros St yield st. apply All_same_elements; exact He.
  - intros n. reflexivity.
  - intros [|fuel] r; discriminate.
Qed.

(** C5.  Inserting pairwise-distinct elements, in any order, into an empty
    set and calling [ToSlice] returns exactly those elements in strictly
    ascending order.  (The number of elements fits Go's [int].) *)
Theorem New_ToSlice_sorted (l : list E) :
  NoDup l ->
  (Z.of_nat (length l) <= int_max)%Z ->
  exists s out,
    New l = Ok s
    /\ ToSlice s = Ok out
    /\ StronglySorted lt out
    /\ Permutation l out.
Proof.
  intros Hnd Hlen. unfold New.
  destruct (addAll_spec l empty reach_empty) as (s & Hs & Hr & Hm & Hsz).
  exists s, (elements (root s)).
  pose proof (reachable_bst _ Hr) as Hbst.
  split; [exact Hs |]. split; [| split; [exact Hbst |]].
  - apply ToSlice_spec. unfold Len. simpl in Hsz. lia.
  - apply NoDup_Permutation; [exact Hnd | apply sorted_NoDup; exact Hbst |].
    intros y. rewrite Hm. simpl. tauto.
Qed.

(** C6.  After every completed [Add] or [Delete], on any set whatever, the
    root, if there is one, is black. *)
Theorem root_black_after_update (s : SortedSet E) (x : E) :
  (exists s' b, Add s x = Ok (s', b) /\ isRed (root s') = false)
  /\ (exists s' d, Delete s x = Ok (s', d) /\ isRed (root s') = false).
Proof.
  split.
  - destruct (Add_total s x) as (s' & b & Ha & _ & Hred). eauto.
  - destruct (Delete_total s x) as (s' & d & Hd & Hred & _). eauto.
Qed.

(** C8.  [All] supports early termination.  Let the consumer write down
    every element it is handed together with its answer: an element answered
    with false is the last one written down, and what was written down is an
    initial part of the full ascending sequence (all of it when every answer
    was true).  The walk returns whenever the consumer does. *)
Theorem All_stops_early (St : Type) (s : SortedSet E)
    (yield : E -> St -> outcome (St * bool)) (st : St) :
  (forall st' log,
     All s (recording yield) (st, []) = Ok (st', log) ->
     (forall pre e post, log = pre ++ (e, false) :: post -> post = [])
     /\ exists rest,
          All s collect [] = Ok (map fst log ++ rest)
          /\ (Forall (fun p => snd p = true) log -> rest = []))
  /\ ((forall e st1, exists r, yield e st1 = Ok r) ->
      exists st' log, All s (recording yield) (st, []) = Ok (st', log)).
Proof.
  split.
  - intros st' log Hall. unfold All in Hall. rewrite all_feed in Hall.
    apply bind_ok in Hall. destruct Hall as ([[st1 log1] go] & Hf & Hret).
    inversion Hret; subst; clear Hret.
    destruct (feed_recording yield _ _ _ _ _ _ Hf) as (ext & Hlog & Hext).
    simpl in Hlog. subst log. rewrite All_collect.
    destruct go.
    + destruct Hext as [Hm Hall]. split.
      * intros pre e post Heq. exfalso. rewrite Heq in Hall.
        apply Forall_app in Hall. destruct Hall as [_ Hall].
        inversion Hall; subst. discriminate.
      * exists []. rewrite app_nil_r, Hm. auto.
    + destruct Hext as (pre' & e' & rest & He & Hall & Hl). split.
      * intros pre e post Heq. rewrite He in Heq.
        eapply (last_false_unique pre pre' post (e, false) (e', false)); eauto.
      * exists rest. split.
        -- rewrite Hl, He, map_app, <- app_assoc. reflexivity.
        -- intros Htrue. exfalso. rewrite He in Htrue.
           apply Forall_app in Htrue. destruct Htrue as [_ Htrue].
           inversion Htrue; subst. discriminate.
  - intros Hy. unfold All. rewrite all_feed.
    destruct (feed_total (recording yield)) with (l := elements (root s)) (st := (st, @nil (E * bool)))
      as ([[st' log] go] & Hf).
    + intros e [st1 log1]. unfold recording. simpl.
      destruct (Hy e st1) as ([st2 go] & Hr). rewrite Hr; simpl; eauto.
    + rewrite Hf; simpl; eauto.
Qed.

(** C9.  Intersection is commutative on the sets the operations can build:
    [Intersection(A,B)] and [Intersection(B,A)] both return, and their
    walks yield the same ascending sequence to every consumer. *)
Theorem Intersection_comm (a b : SortedSet E) :
  reachable a -> reachable b ->
  exists i j,
    Intersection a b = Ok i
    /\ Intersection b a = Ok j
    /\ All i collect [] = All j collect []
    /\ (forall (St : Type) (yield : E -> St -> outcome (St * bool)) st,
          All i yield st = All j yield st)
    /\ (forall x, Contains i x = Contains j x).
Proof.
  intros Ha Hb.
  destruct (Intersection_spec a b Hb) as (i & Hi & Hri & Hmi).
  destruct (Intersection_spec b a Ha) as (j & Hj & Hrj & Hmj).
  assert (He : elements (root i) = elements (root j)).
  { apply sorted_unique; try (apply reachable_bst; assumption).
    intros y. rewrite Hmi, Hmj. tauto. }
  exists i, j. split; [exact Hi |]. split; [exact Hj |].
  split; [apply All_same_elements; exact He |].
  split; [intros; apply All_same_elements; exact He |].
  intros x. unfold Contains.
  rewrite !containsFrom_fresh by (apply reachable_bst; assumption).
  rewrite He. reflexivity.
Qed.

(** C7.  On every set the operations can build (with the non-negative
    length that [make] needs), [String] returns the elements of the set,
    that is the sequence [All] yields, which is strictly ascending and holds
    exactly the elements [Contains] answers true for, separated by single
    spaces and enclosed in braces, each printed with [%q] when the element
    type is [string] and with [%v] otherwise; the empty set is rendered as
    the two braces alone. *)
Theorem String_renders {fmtr : Formatter E} (s : SortedSet E) :
  reachable s ->
  (0 <= Len s)%Z ->
  (exists l,
     All s collect [] = Ok l
     /\ StronglySorted lt l
     /\ (forall x, In x l <-> Contains s x = true)
     /\ String s = Ok (render (if isString E then formatQ else formatV) l))
  /\ String (@empty E) = Ok "{}"%string.
Proof.
  intros Hr Hs. split; [| reflexivity].
  exists (elements (root s)).
  split; [apply All_collect |].
  split; [apply reachable_bst; exact Hr |].
  split.
  - intros x. symmetry. apply Contains_In. exact Hr.
  - rewrite (String_spec s Hs).
    destruct (elements (root s)); reflexivity.
Qed.

(** C2 (as amended).  The recursive insert color-flips on the way down: it
    is equal, as a function on trees, to the reference insert that recolours
    a node with two red children before descending and applies the rotation
    fix-up after the recursive call returns.  Against the reference insert
    that color-flips after the recursive call returns, it returns the same
    inserted flag and a tree with the same in-order contents. *)
Theorem insert_flips_on_the_way_down (fuel : nat) (t : node E) (x : E) :
  insert fuel t x = insertFlipBefore fuel t x
  /\ (nodes t < fuel ->
      exists t1 t2 b,
        insert fuel t x = Ok (t1, b)
        /\ insertFlipAfter fuel t x = Ok (t2, b)
        /\ elements t1 = elements t2).
Proof.
  split; [apply insert_flips_before |].
  intros Hn.
  destruct (insert_total fuel t x Hn) as (t1 & b1 & H1 & _).
  destruct (insertFlipAfter_total fuel t x Hn) as (t2 & b2 & H2).
  pose proof (insert_placed fuel _ _ _ _ H1) as P1.
  pose proof (insertFlipAfter_placed fuel _ _ _ _ H2) as P2.
  rewrite <- P2 in P1. inversion P1; subst.
  exists t1, t2, b2. auto.
Qed.

(** C10.  The recursive insert never returns nil: given fuel for the depth
    of the tree it returns a node, for every tree (nil included) and every
    element; so the unconditional [me.root.red = false] of [Add] never
    dereferences nil, and [Add] returns on every set and element. *)
Theorem insert_never_nil (t : node E) (x : E) :
  (forall fuel, nodes t < fuel ->
     exists t' b, insert fuel t x = Ok (t', b) /\ t' <> Nil)
  /\ (forall s : SortedSet E,
        exists s' b, Add s x = Ok (s', b) /\ root s' <> Nil).
Proof.
  split.
  - intros fuel Hn.
    destruct (insert_total fuel t x Hn) as (t' & b & Hi & Hnil).
    exists t', b. split; [exact Hi |]. intros ->; discriminate.
  - intros s. destruct (Add_total s x) as (s' & b & Ha & Hnil & _).
    exists s', b. split; [exact Ha |]. intros Heq; rewrite Heq in Hnil; discriminate.
Qed.

End Claims.

(** * Concrete runs *)

Open Scope Z_scope.

(** C1.  The run Add 4, Add 2, Add 6, Add 5, Add 7, Delete 2, Delete 5 on the
    empty set returns a set whose walk yields 4, 6 while its length is 3:
    deleting 5 also drops 7, which was never deleted. *)
Theorem Delete_drops_another_element :
  exists s : SortedSet Z,
    run [OpAdd 4; OpAdd 2; OpAdd 6; OpAdd 5; OpAdd 7; OpDelete 2; OpDelete 5]
        empty = Ok s
    /\ Len s = 3
    /\ All s collect [] = Ok [4; 6]
    /\ Contains s 7 = false.
Proof.
  eexists. split; [vm_compute; reflexivity |].
  repeat split; reflexivity.
Qed.

(** C2, as stated, fails: inserting 3 under a black 2 with a red left child 1
    leaves both children red in the code and recolours them in the reference
    that flips on the way back up. *)
Lemma insert_is_not_flip_after :
  ~ (forall (fuel : nat) (t : node Z) (x : Z),
       insert fuel t x = insertFlipAfter fuel t x).
Proof.
  intros Heq.
  specialize (Heq 3%nat (Node 2 false (Node 1 true Nil Nil) Nil) 3).
  vm_compute in Heq. discriminate.
Qed.

(** C3, as stated, fails for an element that is already present: adding 1
    twice to the set holding 1 leaves the length at 1. *)
Lemma Add_twice_present_keeps_Len :
  exists s s1 s2 : SortedSet Z,
    New [1] = Ok s
    /\ Add s 1 = Ok (s1, false)
    /\ Add s1 1 = Ok (s2, false)
    /\ Len s = 1 /\ Len s2 = 1 /\ Len s2 <> Len s + 1.
Proof.
  do 3 eexists. repeat split; try (vm_compute; reflexivity).
  vm_compute. discriminate.
Qed.

(** * The theorems at concrete sets of integers *)

Lemma setOf_reachable (ops : list (op Z)) : reachable (setOf ops).
Proof.
  unfold setOf.
  destruct (run_reachable ops empty reach_empty) as (s & Hrun & Hr).
  rewrite Hrun. exact Hr.
Qed.

Lemma Add_twice_witness :
  exists s1 s2 : SortedSet Z,
    Add (setOf [OpAdd 1]) 2 = Ok (s1, true)
    /\ Add s1 2 = Ok (s2, false)
    /\ Len s2 = 2.
Proof.
  destruct (proj2 (Add_twice (setOf [OpAdd 1]) 2 (setOf_reachable _)))
    as (s1 & s2 & H1 & H2 & _ & H3).
  exists s1, s2. split; [exact H1 |]. split; [exact H2 |].
  apply H3; [reflexivity | vm_compute; split; [discriminate | reflexivity]].
Defined.

Lemma Delete_absent_witness :
  exists s' : SortedSet Z,
    Delete (setOf [OpAdd 1]) 2 = Ok (s', false) /\ Len s' = 1.
Proof.
  destruct (proj1 (Delete_absent (setOf [OpAdd 1]) 2 (setOf_reachable _) eq_refl))
    as (s' & Hd & Hl & _).
  exists s'. split; [exact Hd | exact Hl].
Defined.

Lemma New_ToSlice_sorted_witness :
  exists (s : SortedSet Z) out,
    New [3; 1; 2] = Ok s
    /\ ToSlice s = Ok out
    /\ StronglySorted lt out
    /\ Permutation [3; 1; 2] out.
Proof.
  apply New_ToSlice_sorted.
  - repeat constructor; simpl; intuition discriminate.
  - vm_compute; discriminate.
Defined.

Lemma root_black_after_update_witness :
  (exists s' b, Add (setOf [OpAdd 1]) 1 = Ok (s', b) /\ isRed (root s') = false)
  /\ (exists s' d, Delete (setOf [OpAdd 1]) 1 = Ok (s', d) /\ isRed (root s') = false).
Proof. exact (root_black_after_update (setOf [OpAdd 1]) 1). Defined.

Lemma All_stops_early_witness :
  exists rest,
    All (setOf [OpAdd 1; OpAdd 2; OpAdd 3]) collect []
    = Ok (map fst [(1, true); (2, false)] ++ rest)
    /\ (Forall (fun p => snd p = true) [(1, true); (2, false)] -> rest = []).
Proof.
  exact (proj2
           (proj1
              (All_stops_early unit
                 (setOf [OpAdd 1; OpAdd 2; OpAdd 3])
                 (fun e st => Ok (st, e <? 2)) tt)
              tt [(1, true); (2, false)] eq_refl)).
Defined.

Lemma Intersection_comm_witness :
  exists i j : SortedSet Z,
    Intersection (setOf [OpAdd 1; OpAdd 2]) (setOf [OpAdd 3; OpAdd 2]) = Ok i
    /\ Intersection (setOf [OpAdd 3; OpAdd 2]) (setOf [OpAdd 1; OpAdd 2]) = Ok j
    /\ All i collect [] = All j collect [].
Proof.
  destruct (Intersection_comm (setOf [OpAdd 1; OpAdd 2]) (setOf [OpAdd 3; OpAdd 2])
              (setOf_reachable _) (setOf_reachable _))
    as (i & j & Hi & Hj & He & _).
  exists i, j. split; [exact Hi |]. split; [exact Hj | exact He].
Defined.

Lemma String_renders_witness :
  exists l : list Z,
    All (setOf [OpAdd 2; OpAdd 1]) collect [] = Ok l
    /\ StronglySorted lt l
    /\ (forall x, In x l <-> Contains (setOf [OpAdd 2; OpAdd 1]) x = true)
    /\ String (setOf [OpAdd 2; OpAdd 1]) = Ok (render formatV l).
Proof.
  apply (proj1 (String_renders (setOf [OpAdd 2; OpAdd 1]) (setOf_reachable _)
                  ltac:(vm_compute; discriminate))).
Defined.

Lemma insert_flips_on_the_way_down_witness :
  exists (t1 t2 : node Z) b,
    insert 3 (Node 2 false (Node 1 true Nil Nil) Nil) 3 = Ok (t1, b)
    /\ insertFlipAfter 3 (Node 2 false (Node 1 true Nil Nil) Nil) 3 = Ok (t2, b)
    /\ elements t1 = elements t2.
Proof.
  apply (proj2 (insert_flips_on_the_way_down 3
                  (Node 2 false (Node 1 true Nil Nil) Nil) 3)).
  simpl; lia.
Defined.

Lemma insert_never_nil_witness :
  exists (t' : node Z) b, insert 1 Nil 5 = Ok (t', b) /\ t' <> Nil.
Proof.
  apply (proj1 (insert_never_nil Nil 5) 1%nat). simpl; lia.
Defined.

(** * The further properties at concrete sets of integers *)

Lemma Contains_iff_yielded_witness :
  Contains (setOf [OpAdd 1; OpAdd 2]) 2 = true <->
  exists l, All (setOf [OpAdd 1; OpAdd 2]) collect [] = Ok l /\ In 2 l.
Proof.
  exact (Contains_iff_yielded (setOf [OpAdd 1; OpAdd 2]) 2 (setOf_reachable _)).
Defined.

Lemma Contains_after_Add_witness :
  exists s' : SortedSet Z,
    Add (setOf [OpAdd 1]) 2 = Ok (s', negb (Contains (setOf [OpAdd 1]) 2))
    /\ Contains s' 2 = true
    /\ forall y, y <> 2 -> Contains s' y = Contains (setOf [OpAdd 1]) y.
Proof.
  exact (Contains_after_Add (setOf [OpAdd 1]) 2 (setOf_reachable _)).
Defined.

Lemma Delete_present_witness :
  exists s' : SortedSet Z,
    Delete (setOf [OpAdd 1; OpAdd 2]) 1 = Ok (s', true)
    /\ Contains s' 1 = false
    /\ Len s' = int_wrap (Len (setOf [OpAdd 1; OpAdd 2]) - 1)
    /\ forall y, Contains s' y = true -> Contains (setOf [OpAdd 1; OpAdd 2]) y = true.
Proof.
  exact (Delete_present (setOf [OpAdd 1; OpAdd 2]) 1 (setOf_reachable _) eq_refl).
Defined.

Lemma New_members_witness :
  exists (s : SortedSet Z) out,
    New [2; 1; 2] = Ok s
    /\ ToSlice s = Ok out
    /\ StronglySorted lt out
    /\ (forall x, In x out <-> In x [2; 1; 2])
    /\ Len s = Z.of_nat (length out)
    /\ (forall x, Contains s x = true <-> In x [2; 1; 2])
    /\ (IsEmpty s = true <-> [2; 1; 2] = []).
Proof.
  apply (New_members [2; 1; 2]). vm_compute; discriminate.
Defined.

Lemma Clone_same_witness :
  exists (c : SortedSet Z) l,
    Clone (setOf [OpAdd 2; OpAdd 1]) = Ok c
    /\ ToSlice c = Ok l
    /\ Len c = Z.of_nat (length l)
    /\ (forall (St : Type) (yield : Z -> St -> outcome (St * bool)) st,
          All c yield st = All (setOf [OpAdd 2; OpAdd 1]) yield st)
    /\ (counted (setOf [OpAdd 2; OpAdd 1]) ->
        Equal (setOf [OpAdd 2; OpAdd 1]) c = Ok true).
Proof.
  apply (Clone_same (setOf [OpAdd 2; OpAdd 1]) (setOf_reachable _)).
  vm_compute; discriminate.
Defined.

Lemma Difference_members_witness :
  exists (d : SortedSet Z) l,
    Difference (setOf [OpAdd 1; OpAdd 2]) (setOf [OpAdd 2; OpAdd 3]) = Ok d
    /\ (forall x, Contains d x =
                  Contains (setOf [OpAdd 1; OpAdd 2]) x
                  && negb (Contains (setOf [OpAdd 2; OpAdd 3]) x))
    /\ ToSlice d = Ok l
    /\ StronglySorted lt l
    /\ Len d = Z.of_nat (length l).
Proof.
  apply (Difference_members (setOf [OpAdd 1; OpAdd 2]) (setOf [OpAdd 2; OpAdd 3])
           (setOf_reachable _) (setOf_reachable _)).
  vm_compute; discriminate.
Defined.

Lemma SymmetricDifference_members_witness :
  exists (d d' : SortedSet Z) l,
    SymmetricDifference (setOf [OpAdd 1; OpAdd 2]) (setOf [OpAdd 2; OpAdd 3]) = Ok d
    /\ SymmetricDifference (setOf [OpAdd 2; OpAdd 3]) (setOf [OpAdd 1; OpAdd 2]) = Ok d'
    /\ (forall x, Contains d x =
                  xorb (Contains (setOf [OpAdd 1; OpAdd 2]) x)
                       (Contains (setOf [OpAdd 2; OpAdd 3]) x))
    /\ ToSlice d = Ok l
    /\ ToSlice d' = Ok l
    /\ Len d = Z.of_nat (length l).
Proof.
  apply (SymmetricDifference_members
           (setOf [OpAdd 1; OpAdd 2]) (setOf [OpAdd 2; OpAdd 3])
           (setOf_reachable _) (setOf_reachable _)).
  vm_compute; discriminate.
Defined.

Lemma Union_members_witness :
  exists (u : SortedSet Z) l,
    Union (setOf [OpAdd 1; OpAdd 2]) (setOf [OpAdd 2; OpAdd 3]) = Ok u
    /\ (forall x, Contains u x =
                  Contains (setOf [OpAdd 1; OpAdd 2]) x
                  || Contains (setOf [OpAdd 2; OpAdd 3]) x)
    /\ ToSlice u = Ok l
    /\ StronglySorted lt l
    /\ Len u = Z.of_nat (length l).
Proof.
  apply (Union_members (setOf [OpAdd 1; OpAdd 2]) (setOf [OpAdd 2; OpAdd 3])
           (setOf_reachable _) (setOf_reachable _)).
  vm_compute; discriminate.
Defined.

Lemma Intersection_members_witness :
  exists (i : SortedSet Z) l,
    Intersection (setOf [OpAdd 1; OpAdd 2]) (setOf [OpAdd 2; OpAdd 3]) = Ok i
    /\ (forall x, Contains i x =
                  Contains (setOf [OpAdd 1; OpAdd 2]) x
                  && Contains (setOf [OpAdd 2; OpAdd 3]) x)
    /\ ToSlice i = Ok l
    /\ StronglySorted lt l
    /\ Len i = Z.of_nat (length l).
Proof.
  apply (Intersection_members (setOf [OpAdd 1; OpAdd 2]) (setOf [OpAdd 2; OpAdd 3])
           (setOf_reachable _) (setOf_reachable _)).
  vm_compute; discriminate.
Defined.

Lemma IsDisjoint_iff_witness :
  exists r,
    IsDisjoint (setOf [OpAdd 1; OpAdd 2]) (setOf [OpAdd 3]) = Ok r
    /\ IsDisjoint (setOf [OpAdd 3]) (setOf [OpAdd 1; OpAdd 2]) = Ok r
    /\ (r = true <->
        forall x, Contains (setOf [OpAdd 1; OpAdd 2]) x = true ->
                  Contains (setOf [OpAdd 3]) x = false).
Proof.
  exact (IsDisjoint_iff (setOf [OpAdd 1; OpAdd 2]) (setOf [OpAdd 3])
           (setOf_reachable _) (setOf_reachable _)).
Defined.

Lemma IsSubsetOf_iff_witness :
  exists r,
    IsSubsetOf (setOf [OpAdd 2]) (setOf [OpAdd 1; OpAdd 2]) = Ok r
    /\ IsSupersetOf (setOf [OpAdd 1; OpAdd 2]) (setOf [OpAdd 2]) = Ok r
    /\ (r = true <->
        forall x, Contains (setOf [OpAdd 2]) x = true ->
                  Contains (setOf [OpAdd 1; OpAdd 2]) x = true).
Proof.
  exact (IsSubsetOf_iff (setOf [OpAdd 2]) (setOf [OpAdd 1; OpAdd 2])
           (setOf_reachable _)).
Defined.

Lemma Equal_iff_witness :
  exists r,
    Equal (setOf [OpAdd 1; OpAdd 2]) (setOf [OpAdd 2; OpAdd 1]) = Ok r
    /\ (r = true <->
        Len (setOf [OpAdd 1; OpAdd 2]) = Len (setOf [OpAdd 2; OpAdd 1])
        /\ forall x, Contains (setOf [OpAdd 1; OpAdd 2]) x = true ->
                     Contains (setOf [OpAdd 2; OpAdd 1]) x = true)
    /\ (counted (setOf [OpAdd 1; OpAdd 2]) -> counted (setOf [OpAdd 2; OpAdd 1]) ->
        (r = true <->
         forall x, Contains (setOf [OpAdd 1; OpAdd 2]) x
                   = Contains (setOf [OpAdd 2; OpAdd 1]) x)).
Proof.
  exact (Equal_iff (setOf [OpAdd 1; OpAdd 2]) (setOf [OpAdd 2; OpAdd 1])
           (setOf_reachable _) (setOf_reachable _)).
Defined.

Lemma AllX_numbered_witness :
  AllX (setOf [OpAdd 1; OpAdd 2]) [5] collectX [] = Ok (numbered 5 [1; 2]).
Proof.
  apply (AllX_numbered (setOf [OpAdd 1; OpAdd 2]) [5] [1; 2]).
  - reflexivity.
  - vm_compute; discriminate.
  - vm_compute; discriminate.
Defined.

Lemma Add_keeps_red_black_witness :
  exists (s' : SortedSet Z) b,
    Add (setOf [OpAdd 1; OpAdd 2]) 3 = Ok (s', b)
    /\ isRedBlack (root s') = true.
Proof.
  exact (Add_keeps_red_black (setOf [OpAdd 1; OpAdd 2]) 3 eq_refl).
Defined.

Lemma run_keeps_order_witness :
  exists (s : SortedSet Z) l,
    run [OpAdd 2; OpAdd 1; OpDelete 2; OpAdd 3] empty = Ok s
    /\ ToSlice s = Ok l
    /\ StronglySorted lt l
    /\ (forall x, In x l -> In (OpAdd x) [OpAdd 2; OpAdd 1; OpDelete 2; OpAdd 3])
    /\ Z.of_nat (length l) <= Len s
       <= Z.of_nat (length [OpAdd 2; OpAdd 1; OpDelete 2; OpAdd 3]).
Proof.
  apply (run_keeps_order [OpAdd 2; OpAdd 1; OpDelete 2; OpAdd 3]).
  vm_compute; discriminate.
Defined.
